(** * Simulador de colisoes 2D: a shallow embedding of [main.c]

    The simulator keeps a fixed array of balls, moves them every frame
    and resolves wall and ball-to-ball collisions.  This development
    embeds the physics routines of [main.c] and states their properties.

    Conventions of the embedding.
    - C [float] values are idealised as real numbers ([R]); [sqrtf] is
      [sqrt].  Rounding is out of the model, so the conservation laws are
      proved exactly and not up to a tolerance.
    - C [int] values are integers ([Z]); [+] and [-] on [int] wrap to 32
      bits ([Int.wrap]); the conversion [(float)i] is [IZR i].
    - The ball array is a [list Ball]; an access outside the list makes
      the routine return [None].
    - [RESTITUTION_COEFFICIENT] differs between the two copies of the
      program (1.0 and 0.85), so the routines take it as a parameter. *)

From Stdlib Require Import ZArith Reals Lra Lia.
From stdpp Require Import base decidable option list strings.

Open Scope R_scope.

(** ** Numbers *)

#[global] Instance Rlt_decision (u v : R) : Decision (u < v) := Rlt_dec u v.
#[global] Instance Rgt_decision (u v : R) : Decision (u > v) := Rgt_dec u v.
#[global] Instance Rle_decision (u v : R) : Decision (u <= v) := Rle_dec u v.
#[global] Instance Rge_decision (u v : R) : Decision (u >= v) := Rge_dec u v.
#[global] Instance Req_decision : EqDecision R := Req_dec_T.

(** 32-bit two's complement [int]. *)
Module Int.
Definition min_signed : Z := (- 2 ^ 31)%Z.
Definition max_signed : Z := (2 ^ 31 - 1)%Z.
Definition wrap (z : Z) : Z := ((z + 2 ^ 31) mod 2 ^ 32 - 2 ^ 31)%Z.
Definition add (u v : Z) : Z := wrap (u + v).
Definition sub (u v : Z) : Z := wrap (u - v).
Definition in_range (z : Z) : Prop := (min_signed <= z <= max_signed)%Z.
End Int.

(** ** Configuration constants *)

Definition WIDTH : Z := 800.
Definition HEIGHT : Z := 600.
Definition MIN_BALL_RADIUS : Z := 15.
Definition MAX_BALL_RADIUS : Z := 35.
Definition VELOCITY_SCALE : R := 200.

(** [RESTITUTION_COEFFICIENT] of [src/main.c]. *)
Definition RESTITUTION_elastic : R := 1.
(** [RESTITUTION_COEFFICIENT] of the second copy of the program, set to
    show the energy decrease. *)
Definition RESTITUTION_damped : R := 0.85.

(** ** Data model *)

Record Vector2 : Type := mkVector2 { x : R; y : R }.

(** raylib's [Color]: four [unsigned char] channels. *)
Module Color.
Record t : Type := mk { r : Z; g : Z; b : Z; a : Z }.
End Color.

Record Ball : Type := mkBall {
  position : Vector2;
  velocity : Vector2;
  radius : Z;
  mass : R;
  color : Color.t
}.

Definition set_position (b : Ball) (p : Vector2) : Ball :=
  {| position := p; velocity := velocity b; radius := radius b;
     mass := mass b; color := color b |}.

Definition set_velocity (b : Ball) (v : Vector2) : Ball :=
  {| position := position b; velocity := v; radius := radius b;
     mass := mass b; color := color b |}.

(** A counted [for (i = start; i < start + count; i++)] loop over a state
    that can fail. *)
Fixpoint for_loop {S : Type} (body : nat → S → option S)
    (start count : nat) (s : S) : option S :=
  match count with
  | O => Some s
  | Datatypes.S count' => s' ← body start s; for_loop body (Datatypes.S start) count' s'
  end.

(** Division that reports a zero divisor. *)
Definition checked_div (u v : R) : option R :=
  if decide (v = 0) then None else Some (u / v).

Section Physics.

Variable RESTITUTION_COEFFICIENT : R.

(** ** [CheckBallCollision] *)

Definition CheckBallCollision (b1 b2 : Ball) : Ball * Ball :=
  let dx := x (position b2) - x (position b1) in
  let dy := y (position b2) - y (position b1) in
  let distSq := dx * dx + dy * dy in
  let min_dist := IZR (Int.add (radius b1) (radius b2)) in
  if bool_decide (distSq < min_dist * min_dist) && bool_decide (distSq > 0) then
    let distance := sqrt distSq in
    let nx := dx / distance in
    let ny := dy / distance in
    let overlap := 0.5 * (min_dist - distance) in
    let b1 := set_position b1
      {| x := x (position b1) - overlap * nx;
         y := y (position b1) - overlap * ny |} in
    let b2 := set_position b2
      {| x := x (position b2) + overlap * nx;
         y := y (position b2) + overlap * ny |} in
    let relativeVelocity :=
      {| x := x (velocity b2) - x (velocity b1);
         y := y (velocity b2) - y (velocity b1) |} in
    let velocityAlongNormal :=
      x relativeVelocity * nx + y relativeVelocity * ny in
    if bool_decide (velocityAlongNormal > 0) then (b1, b2)
    else
      let impulse :=
        (- (1 + RESTITUTION_COEFFICIENT)) * velocityAlongNormal
        / (1 / mass b1 + 1 / mass b2) in
      let b1 := set_velocity b1
        {| x := x (velocity b1) - impulse * nx / mass b1;
           y := y (velocity b1) - impulse * ny / mass b1 |} in
      let b2 := set_velocity b2
        {| x := x (velocity b2) + impulse * nx / mass b2;
           y := y (velocity b2) + impulse * ny / mass b2 |} in
      (b1, b2)
  else (b1, b2).

(** The same routine with every [/] of the source replaced by
    [checked_div]: the result is [None] as soon as one divisor is zero. *)
Definition CheckBallCollision_checked (b1 b2 : Ball) : option (Ball * Ball) :=
  let dx := x (position b2) - x (position b1) in
  let dy := y (position b2) - y (position b1) in
  let distSq := dx * dx + dy * dy in
  let min_dist := IZR (Int.add (radius b1) (radius b2)) in
  if bool_decide (distSq < min_dist * min_dist) && bool_decide (distSq > 0) then
    let distance := sqrt distSq in
    nx ← checked_div dx distance;
    ny ← checked_div dy distance;
    let overlap := 0.5 * (min_dist - distance) in
    let b1 := set_position b1
      {| x := x (position b1) - overlap * nx;
         y := y (position b1) - overlap * ny |} in
    let b2 := set_position b2
      {| x := x (position b2) + overlap * nx;
         y := y (position b2) + overlap * ny |} in
    let relativeVelocity :=
      {| x := x (velocity b2) - x (velocity b1);
         y := y (velocity b2) - y (velocity b1) |} in
    let velocityAlongNormal :=
      x relativeVelocity * nx + y relativeVelocity * ny in
    if bool_decide (velocityAlongNormal > 0) then Some (b1, b2)
    else
      inv1 ← checked_div 1 (mass b1);
      inv2 ← checked_div 1 (mass b2);
      impulse ← checked_div
        ((- (1 + RESTITUTION_COEFFICIENT)) * velocityAlongNormal) (inv1 + inv2);
      v1x ← checked_div (impulse * nx) (mass b1);
      v1y ← checked_div (impulse * ny) (mass b1);
      v2x ← checked_div (impulse * nx) (mass b2);
      v2y ← checked_div (impulse * ny) (mass b2);
      let b1 := set_velocity b1
        {| x := x (velocity b1) - v1x; y := y (velocity b1) - v1y |} in
      let b2 := set_velocity b2
        {| x := x (velocity b2) + v2x; y := y (velocity b2) + v2y |} in
      Some (b1, b2)
  else Some (b1, b2).

(** ** [CheckWallCollision] *)

Definition CheckWallCollision (ball : Ball) : Ball :=
  let ball :=
    if bool_decide (x (position ball) - IZR (radius ball) <= 0) then
      let ball := set_position ball
        {| x := IZR (radius ball); y := y (position ball) |} in
      set_velocity ball
        {| x := x (velocity ball) * (- RESTITUTION_COEFFICIENT);
           y := y (velocity ball) |}
    else if bool_decide (x (position ball) + IZR (radius ball) >= IZR WIDTH) then
      let ball := set_position ball
        {| x := IZR (Int.sub WIDTH (radius ball)); y := y (position ball) |} in
      set_velocity ball
        {| x := x (velocity ball) * (- RESTITUTION_COEFFICIENT);
           y := y (velocity ball) |}
    else ball in
  if bool_decide (y (position ball) - IZR (radius ball) <= 0) then
    let ball := set_position ball
      {| x := x (position ball); y := IZR (radius ball) |} in
    set_velocity ball
      {| x := x (velocity ball);
         y := y (velocity ball) * (- RESTITUTION_COEFFICIENT) |}
  else if bool_decide (y (position ball) + IZR (radius ball) >= IZR HEIGHT) then
    let ball := set_position ball
      {| x := x (position ball); y := IZR (Int.sub HEIGHT (radius ball)) |} in
    set_velocity ball
      {| x := x (velocity ball);
         y := y (velocity ball) * (- RESTITUTION_COEFFICIENT) |}
  else ball.

(** ** [UpdateFrame] *)

(** Body of the first loop: [balls[i].position += balls[i].velocity * deltaTime]. *)
Definition move_ball (deltaTime : R) (ball : Ball) : Ball :=
  set_position ball
    {| x := x (position ball) + x (velocity ball) * deltaTime;
       y := y (position ball) + y (velocity ball) * deltaTime |}.

Definition move_step (deltaTime : R) (i : nat) (balls : list Ball)
    : option (list Ball) :=
  ball ← balls !! i; Some (<[i := move_ball deltaTime ball]> balls).

(** Body of the inner loop: [CheckBallCollision(&balls[i], &balls[j])]. *)
Definition pair_step (i j : nat) (balls : list Ball) : option (list Ball) :=
  b1 ← balls !! i;
  b2 ← balls !! j;
  let '(b1', b2') := CheckBallCollision b1 b2 in
  Some (<[j := b2']> (<[i := b1']> balls)).

(** Body of the outer loop of the second pass. *)
Definition collide_step (numBalls : nat) (i : nat) (balls : list Ball)
    : option (list Ball) :=
  ball ← balls !! i;
  let balls := <[i := CheckWallCollision ball]> balls in
  for_loop (pair_step i) (i + 1) (numBalls - (i + 1)) balls.

(** [deltaTime] is the value returned by raylib's [GetFrameTime]. *)
Definition UpdateFrame (deltaTime : R) (balls : list Ball) (numBalls : Z)
    : option (list Ball) :=
  let n := Z.to_nat numBalls in
  balls ← for_loop (move_step deltaTime) 0 n balls;
  for_loop (collide_step n) 0 n balls.

(** The main loop calls [UpdateFrame] once per frame; [frames] lists the
    frame times in order. *)
Fixpoint UpdateFrames (frames : list R) (balls : list Ball) (numBalls : Z)
    : option (list Ball) :=
  match frames with
  | [] => Some balls
  | deltaTime :: frames' =>
      balls ← UpdateFrame deltaTime balls numBalls;
      UpdateFrames frames' balls numBalls
  end.

End Physics.

(** ** [CalculateTotalKineticEnergy] *)

Definition energy_step (balls : list Ball) (i : nat) (totalEnergy : R)
    : option R :=
  ball ← balls !! i;
  let speedSq :=
    x (velocity ball) * x (velocity ball) + y (velocity ball) * y (velocity ball) in
  let kineticEnergy := 0.5 * mass ball * speedSq in
  Some (totalEnergy + kineticEnergy).

Definition CalculateTotalKineticEnergy (balls : list Ball) (numBalls : Z)
    : option R :=
  for_loop (energy_step balls) 0 (Z.to_nat numBalls) 0.

(** ** [InitBalls] *)

(** Conversion of a [float] argument to [int]: truncation toward zero. *)
Definition float_to_int (u : R) : Z :=
  if decide (0 <= u) then Int_part u else (- Int_part (- u))%Z.

(** Conversion to [unsigned char]. *)
Definition to_uchar (z : Z) : Z := (z mod 256)%Z.

Section Init.

(** raylib's random source: [GetRandomValue k lo hi] is the value returned
    by the [k]-th call of the run, made with arguments [lo] and [hi].  The
    state of [InitBalls] is the array together with the number of calls
    made so far. *)
Variable GetRandomValue : nat → Z → Z → Z.

(** The scan [for (j = 0; j < i; j++)] with its [break]: [Some true] when
    the position of ball [i] overlaps none of the balls before it. *)
Fixpoint position_free (balls : list Ball) (i j count : nat) : option bool :=
  match count with
  | O => Some true
  | S count' =>
      bi ← balls !! i;
      bj ← balls !! j;
      let distSq :=
        (x (position bi) - x (position bj)) * (x (position bi) - x (position bj))
        + (y (position bi) - y (position bj)) * (y (position bi) - y (position bj)) in
      let min_dist := IZR (Int.add (radius bi) (radius bj)) in
      if bool_decide (distSq < min_dist * min_dist) then Some false
      else position_free balls i (S j) count'
  end.

(** The loop [while (!positionFound && attempts < 100)]; [remaining] is
    [100 - attempts]. *)
Fixpoint place_ball (i remaining : nat) (st : list Ball * nat)
    : option (list Ball * nat) :=
  match remaining with
  | O => Some st
  | S remaining' =>
      let '(balls, k) := st in
      ball ← balls !! i;
      let p :=
        {| x := IZR (GetRandomValue k (radius ball) (Int.sub WIDTH (radius ball)));
           y := IZR (GetRandomValue (k + 1) (radius ball)
                       (Int.sub HEIGHT (radius ball))) |} in
      let balls := <[i := set_position ball p]> balls in
      positionFound ← position_free balls i 0 i;
      if positionFound : bool then Some (balls, (k + 2)%nat)
      else place_ball i remaining' (balls, (k + 2)%nat)
  end.

(** Body of the outer loop of [InitBalls]. *)
Definition init_ball (i : nat) (st : list Ball * nat) : option (list Ball * nat) :=
  let '(balls, k) := st in
  ball ← balls !! i;
  let radius_i := GetRandomValue k MIN_BALL_RADIUS MAX_BALL_RADIUS in
  let ball :=
    {| position := position ball; velocity := velocity ball;
       radius := radius_i; mass := IZR radius_i / 2; color := color ball |} in
  '(balls, k) ← place_ball i 100 (<[i := ball]> balls, (k + 1)%nat);
  ball ← balls !! i;
  let lo := float_to_int (- VELOCITY_SCALE) in
  let hi := float_to_int VELOCITY_SCALE in
  let ball := set_velocity ball
    {| x := IZR (GetRandomValue k lo hi);
       y := IZR (GetRandomValue (k + 1) lo hi) |} in
  let ball :=
    {| position := position ball; velocity := velocity ball;
       radius := radius ball; mass := mass ball;
       color :=
         {| Color.r := to_uchar (GetRandomValue (k + 2) 100 255);
            Color.g := to_uchar (GetRandomValue (k + 3) 100 255);
            Color.b := to_uchar (GetRandomValue (k + 4) 100 255);
            Color.a := 255 |} |} in
  Some (<[i := ball]> balls, (k + 5)%nat).

Definition InitBalls (balls : list Ball) (numBalls : Z) (calls : nat)
    : option (list Ball * nat) :=
  for_loop init_ball 0 (Z.to_nat numBalls) (balls, calls).

End Init.

(** ** Quantities named in the statements *)

(** Squared distance between the centres, as [CheckBallCollision] computes it. *)
Definition dist_sq (b1 b2 : Ball) : R :=
  (x (position b2) - x (position b1)) * (x (position b2) - x (position b1))
  + (y (position b2) - y (position b1)) * (y (position b2) - y (position b1)).

(** Sum of the radii, converted to [float]. *)
Definition min_dist (b1 b2 : Ball) : R := IZR (Int.add (radius b1) (radius b2)).

(** The test of [CheckBallCollision]: the balls overlap and their centres
    are distinct. *)
Definition in_contact (b1 b2 : Ball) : Prop :=
  dist_sq b1 b2 < min_dist b1 b2 * min_dist b1 b2 ∧ dist_sq b1 b2 > 0.

(** Collision normal, from the first ball to the second. *)
Definition normal (b1 b2 : Ball) : Vector2 :=
  {| x := (x (position b2) - x (position b1)) / sqrt (dist_sq b1 b2);
     y := (y (position b2) - y (position b1)) / sqrt (dist_sq b1 b2) |}.

(** Relative velocity projected on the normal. *)
Definition velocity_along_normal (b1 b2 : Ball) : R :=
  (x (velocity b2) - x (velocity b1)) * x (normal b1 b2)
  + (y (velocity b2) - y (velocity b1)) * y (normal b1 b2).

(** Half of the penetration depth. *)
Definition half_overlap (b1 b2 : Ball) : R :=
  0.5 * (min_dist b1 b2 - sqrt (dist_sq b1 b2)).

(** Impulse magnitude for restitution coefficient [e]. *)
Definition impulse (e : R) (b1 b2 : Ball) : R :=
  (- (1 + e)) * velocity_along_normal b1 b2 / (1 / mass b1 + 1 / mass b2).

(** The two balls after the positional correction. *)
Definition pushed_apart (b1 b2 : Ball) : Ball * Ball :=
  (set_position b1
     {| x := x (position b1) - half_overlap b1 b2 * x (normal b1 b2);
        y := y (position b1) - half_overlap b1 b2 * y (normal b1 b2) |},
   set_position b2
     {| x := x (position b2) + half_overlap b1 b2 * x (normal b1 b2);
        y := y (position b2) + half_overlap b1 b2 * y (normal b1 b2) |}).

(** Total momentum of two balls. *)
Definition momentum (b1 b2 : Ball) : Vector2 :=
  {| x := mass b1 * x (velocity b1) + mass b2 * x (velocity b2);
     y := mass b1 * y (velocity b1) + mass b2 * y (velocity b2) |}.

(** Kinetic energy of one ball, the summand of [CalculateTotalKineticEnergy]. *)
Definition kinetic_energy (ball : Ball) : R :=
  0.5 * mass ball
  * (x (velocity ball) * x (velocity ball) + y (velocity ball) * y (velocity ball)).


(** Distance between the centres of two balls. *)
Definition distance_between (b1 b2 : Ball) : R := sqrt (dist_sq b1 b2).

(** The ball lies inside the window. *)
Definition inside_window (ball : Ball) : Prop :=
  IZR (radius ball) <= x (position ball) <= IZR WIDTH - IZR (radius ball)
  ∧ IZR (radius ball) <= y (position ball) <= IZR HEIGHT - IZR (radius ball).

(** The fields that no physics routine writes. *)
Definition same_body (b1 b2 : Ball) : Prop :=
  radius b1 = radius b2 ∧ mass b1 = mass b2 ∧ color b1 = color b2.

(** Position by position, [balls] holds balls with the bodies of [start]:
    the invariant of both loops of [UpdateFrame]. *)
Definition same_bodies (balls start : list Ball) : Prop :=
  Forall2 same_body balls start.

(** What [InitBalls] guarantees about the radius and the mass of a ball. *)
Definition initialized (ball : Ball) : Prop :=
  (MIN_BALL_RADIUS <= radius ball <= MAX_BALL_RADIUS)%Z
  ∧ mass ball = IZR (radius ball) / 2.

(** The contract of raylib's [GetRandomValue]: the value lies between the
    two bounds. *)
Definition in_bounds (rand : nat → Z → Z → Z) : Prop :=
  ∀ (k : nat) (lo hi : Z), (lo <= hi)%Z → (lo <= rand k lo hi <= hi)%Z.

(** ** A frame that ends with a ball across the wall *)

Definition plain : Color.t :=
  {| Color.r := 255; Color.g := 255; Color.b := 255; Color.a := 255 |}.

(** A ball at rest that touches the left wall. *)
Definition resting_ball : Ball :=
  {| position := {| x := 15; y := 300 |}; velocity := {| x := 0; y := 0 |};
     radius := 15; mass := 7.5; color := plain |}.

(** A ball to its right, clear of it, that moves toward it. *)
Definition incoming_ball : Ball :=
  {| position := {| x := 50; y := 300 |}; velocity := {| x := - 160; y := 0 |};
     radius := 15; mass := 7.5; color := plain |}.

(** A ball of radius 20 and mass 10 on the x axis, at abscissa [px],
    moving along the axis at speed [vx]. *)
Definition disc (px vx : R) : Ball :=
  {| position := {| x := px; y := 0 |}; velocity := {| x := vx; y := 0 |};
     radius := 20; mass := 10; color := plain |}.

(** A random source that always answers with its lower bound. *)
Definition lowest (k : nat) (lo hi : Z) : Z := lo.

(** The ball touches no wall: neither test of an axis fires. *)
Definition clear_of_walls (ball : Ball) : Prop :=
  (IZR (radius ball) < x (position ball)
   ∧ x (position ball) + IZR (radius ball) < IZR WIDTH)
  ∧ (IZR (radius ball) < y (position ball)
     ∧ y (position ball) + IZR (radius ball) < IZR HEIGHT).

(** Sum of the kinetic energies of a list of balls. *)
Definition total_kinetic_energy (balls : list Ball) : R :=
  foldr (λ ball acc, kinetic_energy ball + acc) 0 balls.

(** The energy invariant of a frame: [balls] has the bodies of [start],
    and its first [n] balls have no more kinetic energy than those of
    [start], and as much when the coefficient is 1. *)
Definition energy_bounded (e : R) (n : nat) (start balls : list Ball) : Prop :=
  same_bodies balls start
  ∧ total_kinetic_energy (take n balls) <= total_kinetic_energy (take n start)
  ∧ (e = 1 →
     total_kinetic_energy (take n balls) = total_kinetic_energy (take n start)).

(** The array after the first loop of [UpdateFrame] alone: the first [n]
    balls have moved along their velocity for the frame time. *)
Definition free_flight (deltaTime : R) (n : nat) (balls : list Ball)
    : list Ball :=
  imap (λ k ball, if decide (k < n)%nat then move_ball deltaTime ball else ball)
    balls.

(** The two discs overlap: the rejection test of [InitBalls]. *)
Definition overlapping (b1 b2 : Ball) : Prop :=
  dist_sq b1 b2 < min_dist b1 b2 * min_dist b1 b2.

(** A ball as [InitBalls] leaves it. *)
Definition spawned (ball : Ball) : Prop :=
  initialized ball
  ∧ inside_window ball
  ∧ (∃ px py : Z, position ball = {| x := IZR px; y := IZR py |})
  ∧ (∃ vx vy : Z,
       velocity ball = {| x := IZR vx; y := IZR vy |}
       ∧ (- 200 <= vx <= 200)%Z ∧ (- 200 <= vy <= 200)%Z)
  ∧ (100 <= Color.r (color ball) <= 255)%Z
  ∧ (100 <= Color.g (color ball) <= 255)%Z
  ∧ (100 <= Color.b (color ball) <= 255)%Z
  ∧ Color.a (color ball) = 255%Z.

(** The ball of index [i] after [InitBalls] has sized it with draw [k] and
    sampled a position for it with the two draws that follow. *)
Definition first_sample (rand : nat → Z → Z → Z) (k : nat) (old : Ball) : Ball :=
  let r := rand k MIN_BALL_RADIUS MAX_BALL_RADIUS in
  {| position :=
       {| x := IZR (rand (k + 1)%nat r (Int.sub WIDTH r));
          y := IZR (rand (k + 1 + 1)%nat r (Int.sub HEIGHT r)) |};
     velocity := velocity old; radius := r; mass := IZR r / 2;
     color := color old |}.

(** A random source that answers with its lower bound, except at the
    draws 9 and 10 (the first position of the second ball), where it
    answers with its upper bound. *)
Definition corners (k : nat) (lo hi : Z) : Z :=
  if (k =? 9)%nat || (k =? 10)%nat then hi else lo.

(** A ball at rest in the middle of the window. *)
Definition centre_ball : Ball :=
  {| position := {| x := 400; y := 300 |}; velocity := {| x := 0; y := 0 |};
     radius := 15; mass := 7.5; color := plain |}.

(** ** [DrawFrame]

    The drawing routine only calls raylib.  Its embedding returns the
    calls in the order they are made, with their arguments. *)

(** The colour arguments: raylib's named constants, or the colour of a
    ball. *)
Inductive Paint : Type :=
| BLACK | WHITE | DARKGRAY | RAYWHITE | LIME | GRAY
| Custom (c : Color.t).

(** The text arguments: a literal, or a call of raylib's [TextFormat] with
    one integer or one floating-point argument. *)
Inductive Text : Type :=
| Literal (text : string)
| TextFormat_int (format : string) (value : Z)
| TextFormat_float (format : string) (value : R).

Inductive DrawCall : Type :=
| BeginDrawing
| ClearBackground (c : Paint)
| DrawCircleV (center : Vector2) (radius : R) (c : Paint)
| DrawText (text : Text) (posX posY fontSize : Z) (c : Paint)
| DrawRectangleLines (posX posY width height : Z) (c : Paint)
| DrawFPS (posX posY : Z)
| EndDrawing.

Section Program.

Variable NUM_BALLS : Z.
Variable RESTITUTION_COEFFICIENT : R.
Variable GetRandomValue : nat → Z → Z → Z.

(** Body of the loop of [DrawFrame]. *)
Definition draw_ball (showDebugInfo : bool) (balls : list Ball) (i : nat)
    (drawn : list DrawCall) : option (list DrawCall) :=
  ball ← balls !! i;
  let drawn :=
    drawn ++ [DrawCircleV (position ball) (IZR (radius ball))
                (Custom (color ball))] in
  Some
    (if showDebugInfo then
       drawn ++ [DrawText (TextFormat_float "M:%.1f" (mass ball))
                   (float_to_int (x (position ball) - 15))
                   (float_to_int (y (position ball) - 8)) 10 WHITE]
     else drawn).

Definition DrawFrame (showDebugInfo : bool) (balls : list Ball) (numBalls : Z)
    (kineticEnergy : R) : option (list DrawCall) :=
  drawn ← for_loop (draw_ball showDebugInfo balls) 0 (Z.to_nat numBalls)
             [BeginDrawing; ClearBackground BLACK];
  Some
    (drawn ++
     [DrawRectangleLines 0 0 WIDTH HEIGHT DARKGRAY;
      DrawText (TextFormat_int "Bolinhas: %d" NUM_BALLS) 10 10 20 RAYWHITE;
      DrawText (TextFormat_float "Restituição: %.2f" RESTITUTION_COEFFICIENT)
        10 35 20 RAYWHITE;
      DrawText (TextFormat_float "Energia Cinética Total: %.0f" kineticEnergy)
        10 60 20 LIME;
      DrawFPS (Int.sub WIDTH 90) 10;
      DrawText (Literal "Pressione [R] para reiniciar") (Int.sub WIDTH 170)
        40 10 GRAY;
      DrawText (Literal "Pressione [D] para info") (Int.sub WIDTH 170)
        55 10 GRAY;
      EndDrawing]).

(** ** [main]

    One iteration of the loop of [main] reads [IsKeyPressed(KEY_R)],
    [IsKeyPressed(KEY_D)] and, in [UpdateFrame], [GetFrameTime()].  The
    program state is the array, the global [showDebugInfo] and the number
    of random values drawn so far.  The opening and the closing of the
    window are not part of the embedding. *)

Record Input : Type := mkInput {
  key_r : bool;
  key_d : bool;
  frame_time : R
}.

Record World : Type := mkWorld {
  array : list Ball;
  showDebugInfo : bool;
  draws : nat
}.

Definition main_iteration (input : Input) (world : World)
    : option (World * list DrawCall) :=
  '(balls, k) ←
    (if key_r input then InitBalls GetRandomValue (array world) NUM_BALLS (draws world)
     else Some (array world, draws world));
  let debug :=
    if key_d input then negb (showDebugInfo world) else showDebugInfo world in
  balls ← UpdateFrame RESTITUTION_COEFFICIENT (frame_time input) balls NUM_BALLS;
  totalKE ← CalculateTotalKineticEnergy balls NUM_BALLS;
  frame ← DrawFrame debug balls NUM_BALLS totalKE;
  Some ({| array := balls; showDebugInfo := debug; draws := k |}, frame).

(** The loop [while (!WindowShouldClose())], one input per iteration; the
    result is the final state and the frames drawn, in order. *)
Fixpoint main_loop (inputs : list Input) (world : World)
    : option (World * list (list DrawCall)) :=
  match inputs with
  | [] => Some (world, [])
  | input :: inputs' =>
      '(world, frame) ← main_iteration input world;
      '(world, frames) ← main_loop inputs' world;
      Some (world, frame :: frames)
  end.

(** [balls] is the array as it is declared, before [InitBalls] fills it. *)
Definition main (balls : list Ball) (inputs : list Input)
    : option (World * list (list DrawCall)) :=
  '(balls, k) ← InitBalls GetRandomValue balls NUM_BALLS 0;
  main_loop inputs {| array := balls; showDebugInfo := true; draws := k |}.

End Program.

(** What a frame shows. *)

(** The circles of a frame, in the order drawn. *)
Definition circles (frame : list DrawCall) : list (Vector2 * R * Paint) :=
  omap (λ call, match call with
                | DrawCircleV center r c => Some (center, r, c)
                | _ => None
                end) frame.

(** The values of the texts drawn with a given [TextFormat] format. *)
Definition shown_floats (format : string) (frame : list DrawCall) : list R :=
  omap (λ call, match call with
                | DrawText (TextFormat_float f value) _ _ _ _ =>
                    if decide (f = format) then Some value else None
                | _ => None
                end) frame.

Definition mass_labels : list DrawCall → list R := shown_floats "M:%.1f".

Definition shown_energy : list DrawCall → list R :=
  shown_floats "Energia Cinética Total: %.0f".

(** Each value is at most the one before it, the first one at most
    [bound]. *)
Fixpoint nonincreasing_from (bound : R) (values : list R) : Prop :=
  match values with
  | [] => True
  | value :: values' => value <= bound ∧ nonincreasing_from value values'
  end.

(** Number of iterations in which the key D was pressed. *)
Definition d_presses (inputs : list Input) : nat :=
  length (filter (λ input, key_d input = true) inputs).

(** The invariant of the loop of [main]: the array has [NUM_BALLS] balls,
    all of positive mass. *)
Definition steady (NUM_BALLS : Z) (world : World) : Prop :=
  Z.of_nat (length (array world)) = NUM_BALLS
  ∧ Forall (λ ball, 0 < mass ball) (array world).

(** Two iterations of the loop of [main]: the key D is pressed in the
    first one, no key in the second. *)
Definition sample_inputs : list Input :=
  [ {| key_r := false; key_d := true; frame_time := 0.0625 |};
    {| key_r := false; key_d := false; frame_time := 0.0625 |} ].

Arguments Int.wrap : simpl never.
Arguments Int.add : simpl never.
Arguments Int.sub : simpl never.
Arguments dist_sq : simpl never.
Arguments min_dist : simpl never.
Arguments normal : simpl never.
Arguments velocity_along_normal : simpl never.
Arguments half_overlap : simpl never.
Arguments impulse : simpl never.

(** ** Arithmetic *)

Lemma half_eq : 0.5 = / 2.
Proof. lra. Qed.

Lemma wrap_small (z : Z) : Int.in_range z → Int.wrap z = z.
Proof.
  unfold Int.in_range, Int.min_signed, Int.max_signed, Int.wrap. intros Hz.
  rewrite Z.mod_small; lia.
Qed.

Lemma sqrt_of_square (d s : R) : 0 <= d → d * d = s → sqrt s = d.
Proof. intros Hd <-. by apply sqrt_square. Qed.

Lemma unit_length (dx dy : R) :
  0 < dx * dx + dy * dy →
  let d := sqrt (dx * dx + dy * dy) in
  (dx / d) * (dx / d) + (dy / d) * (dy / d) = 1.
Proof.
  intros Hpos d.
  assert (Hd : 0 < d) by (by apply sqrt_lt_R0).
  assert (Hs : d * d = dx * dx + dy * dy) by (apply sqrt_sqrt; lra).
  field_simplify_eq; [|lra]. lra.
Qed.

(** Energy balance of an impulse [J] applied along a direction [(nx, ny)]. *)
Lemma impulse_energy (m1 m2 v1x v1y v2x v2y nx ny J : R) :
  m1 ≠ 0 → m2 ≠ 0 →
  0.5 * m1 * ((v1x - J * nx / m1) * (v1x - J * nx / m1)
              + (v1y - J * ny / m1) * (v1y - J * ny / m1))
  + 0.5 * m2 * ((v2x + J * nx / m2) * (v2x + J * nx / m2)
                + (v2y + J * ny / m2) * (v2y + J * ny / m2))
  = 0.5 * m1 * (v1x * v1x + v1y * v1y) + 0.5 * m2 * (v2x * v2x + v2y * v2y)
    + J * ((v2x - v1x) * nx + (v2y - v1y) * ny)
    + J * J / 2 * (1 / m1 + 1 / m2) * (nx * nx + ny * ny).
Proof. intros Hm1 Hm2. rewrite half_eq. field. by split. Qed.

(** With the impulse of the source the balance is the classical loss
    [(1 - e^2) / 2 * vn^2 / (1/m1 + 1/m2)]. *)
Lemma impulse_loss (e vn m1 m2 : R) :
  0 < m1 → 0 < m2 →
  let D := 1 / m1 + 1 / m2 in
  let J := (- (1 + e)) * vn / D in
  J * vn + J * J / 2 * D * 1 = - ((1 - e * e) / 2 * (vn * vn / D)).
Proof. intros Hm1 Hm2 D J. subst J D. field. repeat split; lra. Qed.

Lemma reduced_mass_pos (m1 m2 : R) : 0 < m1 → 0 < m2 → 0 < 1 / m1 + 1 / m2.
Proof.
  intros Hm1 Hm2.
  assert (0 < / m1) by (by apply Rinv_0_lt_compat).
  assert (0 < / m2) by (by apply Rinv_0_lt_compat).
  lra.
Qed.

(** ** The three paths of [CheckBallCollision] *)

Section Paths.

Variable e : R.

Lemma CheckBallCollision_apart (b1 b2 : Ball) :
  ¬ in_contact b1 b2 → CheckBallCollision e b1 b2 = (b1, b2).
Proof.
  unfold in_contact, dist_sq, min_dist, CheckBallCollision. intros Hno.
  cbv zeta. repeat case_bool_decide; simpl; try done; by destruct Hno.
Qed.

Lemma CheckBallCollision_separating (b1 b2 : Ball) :
  in_contact b1 b2 → velocity_along_normal b1 b2 > 0 →
  CheckBallCollision e b1 b2 = pushed_apart b1 b2.
Proof.
  unfold in_contact, velocity_along_normal, pushed_apart, half_overlap, normal,
    dist_sq, min_dist, CheckBallCollision.
  intros [Hlt Hpos] Hvn. cbv zeta. simpl in *.
  repeat case_bool_decide; simpl in *; done.
Qed.

Lemma CheckBallCollision_impulse (b1 b2 : Ball) :
  in_contact b1 b2 → velocity_along_normal b1 b2 <= 0 →
  CheckBallCollision e b1 b2 =
    (set_velocity (pushed_apart b1 b2).1
       {| x := x (velocity b1) - impulse e b1 b2 * x (normal b1 b2) / mass b1;
          y := y (velocity b1) - impulse e b1 b2 * y (normal b1 b2) / mass b1 |},
     set_velocity (pushed_apart b1 b2).2
       {| x := x (velocity b2) + impulse e b1 b2 * x (normal b1 b2) / mass b2;
          y := y (velocity b2) + impulse e b1 b2 * y (normal b1 b2) / mass b2 |}).
Proof.
  unfold in_contact, impulse, velocity_along_normal, pushed_apart, half_overlap,
    normal, dist_sq, min_dist, CheckBallCollision.
  intros [Hlt Hpos] Hvn. cbv zeta. simpl in *.
  repeat case_bool_decide; simpl in *; try done. lra.
Qed.

(** The normal has length one whenever the centres are distinct. *)
Lemma normal_unit (b1 b2 : Ball) :
  dist_sq b1 b2 > 0 →
  x (normal b1 b2) * x (normal b1 b2) + y (normal b1 b2) * y (normal b1 b2) = 1.
Proof. intros Hpos. unfold normal, dist_sq in *. simpl. by apply unit_length. Qed.

Lemma centres_distinct (b1 b2 : Ball) : position b1 ≠ position b2 ↔ dist_sq b1 b2 > 0.
Proof.
  unfold dist_sq. destruct (position b1) as [u1 w1], (position b2) as [u2 w2].
  simpl. split.
  - intros Hne.
    pose proof (Rle_0_sqr (u2 - u1)) as Hu2. pose proof (Rle_0_sqr (w2 - w1)) as Hw2.
    unfold Rsqr in *.
    destruct (decide (u2 - u1 = 0)) as [Hu|Hu].
    + destruct (decide (w2 - w1 = 0)) as [Hw|Hw].
      * destruct Hne. f_equal; lra.
      * pose proof (Rsqr_pos_lt _ Hw) as Hlt. unfold Rsqr in Hlt. lra.
    + pose proof (Rsqr_pos_lt _ Hu) as Hlt. unfold Rsqr in Hlt. lra.
  - intros Hpos [= -> ->]. lra.
Qed.

(** Every path leaves radius, mass and colour alone. *)
Lemma CheckBallCollision_same_body (b1 b2 : Ball) :
  same_body (CheckBallCollision e b1 b2).1 b1
  ∧ same_body (CheckBallCollision e b1 b2).2 b2.
Proof.
  unfold CheckBallCollision, same_body. cbv zeta.
  repeat case_bool_decide; simpl; done.
Qed.

Lemma CheckWallCollision_same_body (ball : Ball) :
  same_body (CheckWallCollision e ball) ball.
Proof.
  unfold CheckWallCollision, same_body. cbv zeta.
  repeat case_bool_decide; simpl; done.
Qed.

End Paths.

(** ** Momentum, energy and positions in one pairwise collision *)

Section Collision.

Variable e : R.

Lemma energy_of_pair (b1 b2 : Ball) :
  CalculateTotalKineticEnergy [b1; b2] 2
  = Some (0 + kinetic_energy b1 + kinetic_energy b2).
Proof. reflexivity. Qed.


(** After the positional correction the centres are [min_dist] apart. *)
Lemma pushed_apart_distance (b1 b2 : Ball) :
  in_contact b1 b2 → 0 <= min_dist b1 b2 →
  distance_between (pushed_apart b1 b2).1 (pushed_apart b1 b2).2 = min_dist b1 b2.
Proof.
  intros [_ Hpos] Hmin. unfold distance_between.
  apply sqrt_of_square; [done|].
  pose proof (normal_unit b1 b2 Hpos) as Hunit.
  assert (Hd : 0 < sqrt (dist_sq b1 b2)) by (by apply sqrt_lt_R0).
  assert (Hx : x (position b2) - x (position b1)
               = sqrt (dist_sq b1 b2) * x (normal b1 b2))
    by (unfold normal; simpl; field; lra).
  assert (Hy : y (position b2) - y (position b1)
               = sqrt (dist_sq b1 b2) * y (normal b1 b2))
    by (unfold normal; simpl; field; lra).
  unfold pushed_apart, half_overlap.
  set (d := sqrt (dist_sq b1 b2)) in *. set (n := normal b1 b2) in *.
  set (M := min_dist b1 b2) in *. clearbody d n M.
  unfold dist_sq. cbn. rewrite half_eq.
  replace (x (position b2) + / 2 * (M - d) * x n
           - (x (position b1) - / 2 * (M - d) * x n))
    with (x (position b2) - x (position b1) + (M - d) * x n) by field.
  replace (y (position b2) + / 2 * (M - d) * y n
           - (y (position b1) - / 2 * (M - d) * y n))
    with (y (position b2) - y (position b1) + (M - d) * y n) by field.
  rewrite Hx, Hy.
  replace ((d * x n + (M - d) * x n) * (d * x n + (M - d) * x n)
           + (d * y n + (M - d) * y n) * (d * y n + (M - d) * y n))
    with (M * M * (x n * x n + y n * y n)) by ring.
  rewrite Hunit. ring.
Qed.

(** Change of the kinetic energy on the impulse path. *)
Lemma CheckBallCollision_energy (b1 b2 : Ball) :
  0 < mass b1 → 0 < mass b2 →
  in_contact b1 b2 → velocity_along_normal b1 b2 <= 0 →
  kinetic_energy (CheckBallCollision e b1 b2).1
  + kinetic_energy (CheckBallCollision e b1 b2).2
  = kinetic_energy b1 + kinetic_energy b2
    - (1 - e * e) / 2
      * (velocity_along_normal b1 b2 * velocity_along_normal b1 b2
         / (1 / mass b1 + 1 / mass b2)).
Proof.
  intros Hm1 Hm2 Hc Hvn. rewrite CheckBallCollision_impulse by done.
  pose proof (normal_unit b1 b2 (proj2 Hc)) as Hunit.
  pose proof (impulse_loss e (velocity_along_normal b1 b2) _ _ Hm1 Hm2) as Hloss.
  cbv zeta in Hloss. fold (impulse e b1 b2) in Hloss.
  unfold velocity_along_normal in *.
  generalize dependent (impulse e b1 b2). generalize dependent (normal b1 b2).
  intros n Hvn Hunit J Hloss.
  unfold kinetic_energy, pushed_apart. cbn.
  rewrite impulse_energy by lra. rewrite Hunit. lra.
Qed.

(** C1. Momentum conservation: for two balls of positive mass with
    distinct centres, [CheckBallCollision] leaves
    [mass1 * velocity1 + mass2 * velocity2] unchanged, componentwise. *)
Theorem CheckBallCollision_momentum (b1 b2 : Ball) :
  0 < mass b1 → 0 < mass b2 → position b1 ≠ position b2 →
  momentum (CheckBallCollision e b1 b2).1 (CheckBallCollision e b1 b2).2
  = momentum b1 b2.
Proof.
  intros Hm1 Hm2 _.
  destruct (decide (in_contact b1 b2)) as [Hc|Hc];
    [|by rewrite CheckBallCollision_apart].
  destruct (decide (velocity_along_normal b1 b2 > 0)) as [Hvn|Hvn].
  - by rewrite CheckBallCollision_separating.
  - rewrite CheckBallCollision_impulse by (done || lra).
    unfold momentum. cbn. f_equal; field; lra || (split; lra).
Qed.



(** C8. Balls that already separate: for two balls in contact whose
    relative velocity along the normal is strictly positive,
    [CheckBallCollision] keeps both velocities and still moves each centre
    by half the overlap along the normal, away from the other ball. *)
Theorem CheckBallCollision_already_separating (b1 b2 : Ball) :
  in_contact b1 b2 → velocity_along_normal b1 b2 > 0 →
  velocity (CheckBallCollision e b1 b2).1 = velocity b1
  ∧ velocity (CheckBallCollision e b1 b2).2 = velocity b2
  ∧ position (CheckBallCollision e b1 b2).1
    = {| x := x (position b1) - half_overlap b1 b2 * x (normal b1 b2);
         y := y (position b1) - half_overlap b1 b2 * y (normal b1 b2) |}
  ∧ position (CheckBallCollision e b1 b2).2
    = {| x := x (position b2) + half_overlap b1 b2 * x (normal b1 b2);
         y := y (position b2) + half_overlap b1 b2 * y (normal b1 b2) |}.
Proof. intros Hc Hvn. by rewrite CheckBallCollision_separating. Qed.

End Collision.


(** ** The two scenarios of the specification *)

(** C5. Equal-mass elastic head-on collision: two balls of radius 20 and
    mass 10 whose centres are 39 apart on a horizontal line, the left one
    moving at (+50, 0) and the right one at (-50, 0), with restitution 1.
    One call of [CheckBallCollision] exchanges the velocities and leaves
    the centres 40 apart. *)
Theorem CheckBallCollision_head_on (px py : R) (c1 c2 : Color.t) :
  let b1 := {| position := {| x := px; y := py |};
               velocity := {| x := 50; y := 0 |};
               radius := 20; mass := 10; color := c1 |} in
  let b2 := {| position := {| x := px + 39; y := py |};
               velocity := {| x := - 50; y := 0 |};
               radius := 20; mass := 10; color := c2 |} in
  let after := CheckBallCollision RESTITUTION_elastic b1 b2 in
  velocity after.1 = {| x := - 50; y := 0 |}
  ∧ velocity after.2 = {| x := 50; y := 0 |}
  ∧ distance_between after.1 after.2 = 40.
Proof.
  intros b1 b2 after.
  assert (Hd2 : dist_sq b1 b2 = 39 * 39) by (unfold dist_sq; cbn; ring).
  assert (Hmin : min_dist b1 b2 = 40) by reflexivity.
  assert (Hc : in_contact b1 b2) by (split; rewrite Hd2, ?Hmin; lra).
  assert (Hd : sqrt (dist_sq b1 b2) = 39) by (apply sqrt_of_square; lra).
  assert (Hn : normal b1 b2 = {| x := 1; y := 0 |}).
  { unfold normal. rewrite Hd. cbn. f_equal; field. }
  assert (Hvn : velocity_along_normal b1 b2 = - 100).
  { unfold velocity_along_normal. rewrite Hn. cbn. ring. }
  assert (HJ : impulse RESTITUTION_elastic b1 b2 = 1000).
  { unfold impulse, RESTITUTION_elastic. rewrite Hvn. cbn. field. }
  subst after. rewrite CheckBallCollision_impulse by (done || lra).
  rewrite HJ, Hn. cbn. repeat split.
  - f_equal; field.
  - f_equal; field.
  - change (distance_between (pushed_apart b1 b2).1 (pushed_apart b1 b2).2 = 40).
    rewrite pushed_apart_distance by (done || lra). exact Hmin.
Qed.

(** C6. Bounce on the left wall: a ball at (5, 300) with radius 15 and
    velocity (-100, 0), in the window of width 800.  [CheckWallCollision]
    puts [position.x] at 15 and [velocity.x] at 100 times the restitution
    coefficient; [position.y] and [velocity.y] keep their values. *)
Theorem CheckWallCollision_left_wall (e m : R) (c : Color.t) :
  let ball := {| position := {| x := 5; y := 300 |};
                 velocity := {| x := - 100; y := 0 |};
                 radius := 15; mass := m; color := c |} in
  let after := CheckWallCollision e ball in
  WIDTH = 800%Z
  ∧ x (position after) = 15
  ∧ x (velocity after) = 100 * e
  ∧ y (position after) = 300
  ∧ y (velocity after) = 0.
Proof.
  intros ball after. subst after ball. unfold CheckWallCollision. cbv zeta. cbn.
  rewrite (bool_decide_eq_true_2 (5 - 15 <= 0)) by lra. cbn.
  rewrite (bool_decide_eq_false_2 (300 - 15 <= 0)) by lra.
  rewrite (bool_decide_eq_false_2 (300 + 15 >= 600)) by lra.
  cbn. repeat split; lra.
Qed.

(** ** Counted loops *)

Section Loops.

Context {S : Type}.
Implicit Types (body : nat → S → option S) (P : nat → S → Prop).


(** A loop invariant that every round re-establishes holds at the exit,
    and the loop does exit. *)
Lemma for_loop_total P body start count (s : S) :
  P start s →
  (∀ i t, (start ≤ i < start + count)%nat → P i t →
          ∃ t', body i t = Some t' ∧ P (Datatypes.S i) t') →
  ∃ s', for_loop body start count s = Some s' ∧ P (start + count)%nat s'.
Proof.
  revert start s. induction count as [|count IH]; intros start s Hs Hstep.
  - exists s. rewrite Nat.add_0_r. done.
  - destruct (Hstep start s) as (t & Ht & HP); [lia|done|].
    destruct (IH (Datatypes.S start) t HP) as (s' & Hs' & HP').
    { intros i u Hi. apply Hstep. lia. }
    exists s'. cbn. rewrite Ht. cbn. split; [done|].
    by rewrite <- Nat.add_succ_comm.
Qed.

(** The same for a loop that is only known to have returned. *)
Lemma for_loop_invariant P body start count (s s' : S) :
  P start s →
  (∀ i t t', (start ≤ i < start + count)%nat → P i t →
             body i t = Some t' → P (Datatypes.S i) t') →
  for_loop body start count s = Some s' → P (start + count)%nat s'.
Proof.
  revert start s. induction count as [|count IH]; intros start s Hs Hstep Hrun.
  - cbn in Hrun. rewrite Nat.add_0_r. by simplify_eq.
  - cbn in Hrun. destruct (body start s) as [t|] eqn:Ht; cbn in Hrun; [|done].
    rewrite <- Nat.add_succ_comm. apply (IH (Datatypes.S start) t); [|..|done].
    + by apply (Hstep start s); [lia|..].
    + intros i u u' Hi. apply Hstep. lia.
Qed.

End Loops.

(** ** The fields that a frame never writes *)

#[local] Instance same_body_equivalence : Equivalence same_body.
Proof.
  split.
  - by intros b.
  - intros b b' (? & ? & ?). by repeat split.
  - intros b b' b'' (? & ? & ?) (? & ? & ?). repeat split; congruence.
Qed.

(** Writing back a ball with the same body keeps the array related to
    the array it started from. *)
Lemma same_body_insert (start balls : list Ball) (i : nat) (ball ball' : Ball) :
  Forall2 same_body balls start → balls !! i = Some ball →
  same_body ball' ball → Forall2 same_body (<[i := ball']> balls) start.
Proof.
  intros Hrel Hi Hsame.
  destruct (Forall2_lookup_l _ _ _ _ _ Hrel Hi) as (b0 & Hb0 & Hrel0).
  rewrite <- (list_insert_id start i b0) by done.
  apply Forall2_insert; [done|]. by trans ball.
Qed.

Section Frame.

Variable e : R.
Variable start : list Ball.

Lemma move_step_kept (deltaTime : R) (i : nat) (balls balls' : list Ball) :
  same_bodies balls start → move_step deltaTime i balls = Some balls' → same_bodies balls' start.
Proof.
  unfold move_step. intros Hk Hrun.
  destruct (balls !! i) as [ball|] eqn:Hi; simplify_eq/=.
  by eapply same_body_insert.
Qed.

Lemma pair_step_kept (i j : nat) (balls balls' : list Ball) :
  same_bodies balls start → pair_step e i j balls = Some balls' → same_bodies balls' start.
Proof.
  unfold pair_step. intros Hk Hrun.
  destruct (balls !! i) as [b1|] eqn:Hi; [|done].
  destruct (balls !! j) as [b2|] eqn:Hj; [|done]. cbn in Hrun.
  pose proof (CheckBallCollision_same_body e b1 b2) as [Hs1 Hs2].
  destruct (CheckBallCollision e b1 b2) as [b1' b2']. simplify_eq/=.
  assert (Hk1 : same_bodies (<[i := b1']> balls) start) by (by eapply same_body_insert).
  destruct (decide (i = j)) as [->|Hne].
  - eapply same_body_insert; [done| |].
    + apply list_lookup_insert_eq. by eapply lookup_lt_Some.
    + simplify_eq. by trans b1.
  - eapply same_body_insert; [done| |done].
    by rewrite list_lookup_insert_ne.
Qed.

Lemma collide_step_kept (n i : nat) (balls balls' : list Ball) :
  same_bodies balls start → collide_step e n i balls = Some balls' → same_bodies balls' start.
Proof.
  unfold collide_step. intros Hk Hrun.
  destruct (balls !! i) as [ball|] eqn:Hi; [|done]. cbn in Hrun.
  apply (for_loop_invariant (λ _ t, same_bodies t start) _ _ _ _ _) in Hrun; [done|..].
  - eapply same_body_insert; [done..|]. apply CheckWallCollision_same_body.
  - intros j t t' _. apply pair_step_kept.
Qed.

(** The rounds do not fail on indices inside the array. *)
Lemma move_step_total (deltaTime : R) (i : nat) (balls : list Ball) :
  (i < length balls)%nat → is_Some (move_step deltaTime i balls).
Proof.
  intros Hi. unfold move_step.
  destruct (lookup_lt_is_Some_2 balls i Hi) as [ball ->]. by eexists.
Qed.

Lemma pair_step_total (i j : nat) (balls : list Ball) :
  (i < length balls)%nat → (j < length balls)%nat →
  is_Some (pair_step e i j balls).
Proof.
  intros Hi Hj. unfold pair_step.
  destruct (lookup_lt_is_Some_2 balls i Hi) as [b1 ->].
  destruct (lookup_lt_is_Some_2 balls j Hj) as [b2 ->]. cbn.
  destruct (CheckBallCollision e b1 b2). by eexists.
Qed.

Lemma kept_length (balls : list Ball) :
  same_bodies balls start → length balls = length start.
Proof. apply Forall2_length. Qed.

Lemma collide_step_total (n i : nat) (balls : list Ball) :
  same_bodies balls start → (n ≤ length start)%nat → (i < n)%nat →
  is_Some (collide_step e n i balls).
Proof.
  intros Hk Hn Hi. unfold collide_step.
  pose proof (kept_length _ Hk) as Hlen.
  destruct (lookup_lt_is_Some_2 balls i) as [ball Hball]; [lia|].
  rewrite Hball. cbn.
  destruct (for_loop_total (λ _ t, same_bodies t start) (pair_step e i) (i + 1) (n - (i + 1))
              (<[i := CheckWallCollision e ball]> balls)) as (t & -> & _);
    [| |by eexists].
  - eapply same_body_insert; [done..|]. apply CheckWallCollision_same_body.
  - intros j t Hj Ht. pose proof (kept_length _ Ht).
    destruct (pair_step_total i j t) as [t' Ht']; [lia..|].
    exists t'. split; [done|]. by eapply pair_step_kept.
Qed.

End Frame.

(** ** [UpdateFrame] as a whole *)

Section Update.

Variable e : R.

Lemma same_bodies_refl (balls : list Ball) : same_bodies balls balls.
Proof. apply Forall_Forall2_diag, Forall_forall. by intros ball _. Qed.

Lemma UpdateFrame_kept (deltaTime : R) (balls balls' : list Ball) (numBalls : Z) :
  UpdateFrame e deltaTime balls numBalls = Some balls' → same_bodies balls' balls.
Proof.
  unfold UpdateFrame. intros Hrun.
  destruct (for_loop (move_step deltaTime) 0 (Z.to_nat numBalls) balls)
    as [moved|] eqn:Hmove; [|done].
  cbn in Hrun.
  apply (for_loop_invariant (λ _ t, same_bodies t balls)) in Hmove;
    [|apply same_bodies_refl|intros i t t' _; apply move_step_kept].
  apply (for_loop_invariant (λ _ t, same_bodies t balls)) in Hrun;
    [done|done|intros i t t' _; apply collide_step_kept].
Qed.

(** The first loop of [UpdateFrame] runs to its end on indices inside the
    array. *)
Lemma move_loop_total (deltaTime : R) (balls : list Ball) (n : nat) :
  (n ≤ length balls)%nat →
  ∃ moved, for_loop (move_step deltaTime) 0 n balls = Some moved
           ∧ same_bodies moved balls.
Proof.
  intros Hn.
  apply (for_loop_total (λ _ t, same_bodies t balls));
    [apply same_bodies_refl|].
  intros i t Hi Ht. pose proof (kept_length _ _ Ht).
  destruct (move_step_total deltaTime i t) as [t' Ht']; [lia|].
  exists t'. split; [done|]. by eapply move_step_kept.
Qed.

(** So do the first [m] rounds of the second loop. *)
Lemma collide_loop_total (start balls : list Ball) (n m : nat) :
  same_bodies balls start → (n ≤ length start)%nat → (m ≤ n)%nat →
  ∃ balls', for_loop (collide_step e n) 0 m balls = Some balls'
            ∧ same_bodies balls' start.
Proof.
  intros Hk Hn Hm.
  apply (for_loop_total (λ _ t, same_bodies t start)); [done|].
  intros i t Hi Ht.
  destruct (collide_step_total e start n i t) as [t' Ht']; [done|lia..|].
  exists t'. split; [done|]. by eapply collide_step_kept.
Qed.

Lemma UpdateFrame_total (deltaTime : R) (balls : list Ball) (numBalls : Z) :
  (numBalls <= Z.of_nat (length balls))%Z →
  is_Some (UpdateFrame e deltaTime balls numBalls).
Proof.
  intros Hn. unfold UpdateFrame.
  destruct (move_loop_total deltaTime balls (Z.to_nat numBalls))
    as (moved & -> & Hk); [lia|].
  cbn.
  destruct (collide_loop_total balls moved (Z.to_nat numBalls) (Z.to_nat numBalls))
    as (balls' & -> & _); [done|lia..|].
  by eexists.
Qed.



End Update.

(** C9. [UpdateFrame] writes positions and velocities only: for every
    array, ball count and frame time, every ball has after the call the
    radius, mass and colour it had before; the call returns whenever the
    count does not exceed the length of the array. *)
Theorem UpdateFrame_keeps_bodies (e deltaTime : R) (balls : list Ball)
    (numBalls : Z) :
  ((numBalls <= Z.of_nat (length balls))%Z →
   is_Some (UpdateFrame e deltaTime balls numBalls))
  ∧ ∀ balls' : list Ball,
      UpdateFrame e deltaTime balls numBalls = Some balls' →
      length balls' = length balls
      ∧ ∀ (i : nat) (ball ball' : Ball),
          balls !! i = Some ball → balls' !! i = Some ball' →
          radius ball' = radius ball
          ∧ mass ball' = mass ball
          ∧ color ball' = color ball.
Proof.
  split; [apply UpdateFrame_total|].
  intros balls' Hrun. apply UpdateFrame_kept in Hrun.
  split; [by eapply Forall2_length|].
  intros i ball ball' Hball Hball'.
  apply (Forall2_lookup_lr _ _ _ _ _ _ Hrun Hball' Hball).
Qed.

(** ** Wall containment *)

Lemma inside_window_fits (ball : Ball) :
  inside_window ball →
  (2 * radius ball <= WIDTH)%Z ∧ (2 * radius ball <= HEIGHT)%Z.
Proof.
  unfold inside_window, WIDTH, HEIGHT. intros [Hx Hy].
  split; apply le_IZR; rewrite mult_IZR; lra.
Qed.






(** ** Divisions in [CheckBallCollision] *)

Lemma checked_div_nonzero (u v : R) : v ≠ 0 → checked_div u v = Some (u / v).
Proof. intros Hv. unfold checked_div. by rewrite decide_False. Qed.

Lemma checked_div_zero (u : R) : checked_div u 0 = None.
Proof. unfold checked_div. by rewrite decide_True. Qed.

(** When no divisor is zero the routine computes what the unchecked
    routine computes. *)
Lemma CheckBallCollision_checked_sound (e : R) (b1 b2 : Ball) (pair : Ball * Ball) :
  CheckBallCollision_checked e b1 b2 = Some pair →
  pair = CheckBallCollision e b1 b2.
Proof.
  unfold CheckBallCollision_checked, CheckBallCollision, checked_div. cbv zeta.
  intros Hrun.
  repeat (case_bool_decide || case_decide || simplify_eq/=); done.
Qed.

(** With positive masses no divisor is zero. *)
Lemma CheckBallCollision_checked_total (e : R) (b1 b2 : Ball) :
  0 < mass b1 → 0 < mass b2 →
  CheckBallCollision_checked e b1 b2 = Some (CheckBallCollision e b1 b2).
Proof.
  intros Hm1 Hm2.
  pose proof (reduced_mass_pos _ _ Hm1 Hm2) as HD.
  unfold CheckBallCollision_checked, CheckBallCollision. cbv zeta.
  case_bool_decide as Hlt; [|done]. case_bool_decide as Hpos; [|done].
  cbn [andb].
  assert (Hd : 0 < sqrt (dist_sq b1 b2)) by (by apply sqrt_lt_R0).
  unfold dist_sq in Hd.
  rewrite !checked_div_nonzero by lra. cbn [mbind option_bind].
  case_bool_decide; [done|]. cbn [mass set_position].
  rewrite !(checked_div_nonzero 1) by lra. cbn [mbind option_bind].
  rewrite checked_div_nonzero by lra. cbn [mbind option_bind].
  rewrite !checked_div_nonzero by lra. done.
Qed.

(** A zero mass is reported: the check is not vacuous. *)
Lemma CheckBallCollision_checked_zero_mass (e : R) :
  CheckBallCollision_checked e
    {| position := {| x := 0; y := 0 |}; velocity := {| x := 1; y := 0 |};
       radius := 20; mass := 0; color := plain |}
    {| position := {| x := 39; y := 0 |}; velocity := {| x := 0; y := 0 |};
       radius := 20; mass := 10; color := plain |}
  = None.
Proof.
  unfold CheckBallCollision_checked. cbv zeta. cbn.
  change (IZR (Int.add 20 20)) with 40.
  replace ((39 - 0) * (39 - 0) + (0 - 0) * (0 - 0)) with (39 * 39) by ring.
  rewrite (sqrt_square 39) by lra.
  rewrite (bool_decide_eq_true_2 (39 * 39 < 40 * 40)) by lra.
  rewrite (bool_decide_eq_true_2 (39 * 39 > 0)) by lra. cbn.
  rewrite (checked_div_nonzero (39 - 0) 39), (checked_div_nonzero (0 - 0) 39)
    by lra.
  cbn. rewrite bool_decide_eq_false_2 by lra.
  by rewrite (checked_div_zero 1).
Qed.

(** Coincident centres: the pair is skipped. *)
Lemma CheckBallCollision_coincident (e : R) (b1 b2 : Ball) :
  position b1 = position b2 → CheckBallCollision e b1 b2 = (b1, b2).
Proof.
  intros Hp. apply CheckBallCollision_apart. intros [_ Hpos].
  by apply centres_distinct in Hpos.
Qed.

Lemma initialized_mass_pos (ball : Ball) : initialized ball → 0 < mass ball.
Proof.
  unfold initialized, MIN_BALL_RADIUS. intros [[Hlo _] ->].
  apply IZR_le in Hlo. lra.
Qed.

(** ** [InitBalls] *)

Section Initializer.

Variable rand : nat → Z → Z → Z.
Hypothesis rand_in_bounds : in_bounds rand.

Lemma position_free_total (balls : list Ball) (i j count : nat) :
  (i < length balls)%nat → (j + count ≤ length balls)%nat →
  is_Some (position_free balls i j count).
Proof.
  intros Hi. revert j. induction count as [|count IH]; intros j Hj; [by eexists|].
  cbn [position_free].
  destruct (lookup_lt_is_Some_2 balls i Hi) as [bi ->].
  destruct (lookup_lt_is_Some_2 balls j) as [bj ->]; [lia|].
  cbn [mbind option_bind]. case_bool_decide; [by eexists|].
  apply IH. lia.
Qed.

(** The placement loop ends, and it writes nothing but the position of
    ball [i]. *)
Lemma place_ball_spec (i remaining : nat) (balls : list Ball) (k : nat) :
  (i < length balls)%nat →
  ∃ balls' k',
    place_ball rand i remaining (balls, k) = Some (balls', k')
    ∧ length balls' = length balls
    ∧ (∀ j, j ≠ i → balls' !! j = balls !! j)
    ∧ ∀ ball, balls !! i = Some ball →
        ∃ ball', balls' !! i = Some ball' ∧ same_body ball' ball.
Proof.
  revert balls k. induction remaining as [|remaining IH]; intros balls k Hi.
  - exists balls, k. repeat split; [done..|]. intros ball Hball. by exists ball.
  - cbn [place_ball].
    destruct (lookup_lt_is_Some_2 balls i Hi) as [ball Hball]. rewrite Hball.
    cbn [mbind option_bind].
    set (placed := <[i := set_position ball _]> balls).
    assert (Hlen : length placed = length balls) by apply length_insert.
    assert (Hat : placed !! i = Some (set_position ball
              {| x := IZR (rand k (radius ball) (Int.sub WIDTH (radius ball)));
                 y := IZR (rand (k + 1)%nat (radius ball)
                             (Int.sub HEIGHT (radius ball))) |}))
      by (by apply list_lookup_insert_eq).
    destruct (position_free_total placed i 0 i) as [found ->]; [lia..|].
    cbn [mbind option_bind]. destruct found.
    + exists placed, (k + 2)%nat. repeat split; [done| |].
      * intros j Hj. by apply list_lookup_insert_ne.
      * intros ? ?. simplify_eq. by eexists.
    + destruct (IH placed (k + 2)%nat) as (balls' & k' & -> & Hlen' & Hne & Hsame);
        [lia|].
      exists balls', k'. repeat split; [congruence| |].
      * intros j Hj. rewrite Hne by done. by apply list_lookup_insert_ne.
      * intros ? ?. simplify_eq.
        destruct (Hsame _ Hat) as (ball' & Hball' & Hbody). by exists ball'.
Qed.

(** One round of [InitBalls] initializes ball [i] and leaves the other
    balls alone. *)
Lemma init_ball_spec (i : nat) (balls : list Ball) (k : nat) :
  (i < length balls)%nat →
  ∃ balls' k',
    init_ball rand i (balls, k) = Some (balls', k')
    ∧ length balls' = length balls
    ∧ (∀ j, j ≠ i → balls' !! j = balls !! j)
    ∧ ∃ ball, balls' !! i = Some ball ∧ initialized ball.
Proof.
  intros Hi. unfold init_ball.
  destruct (lookup_lt_is_Some_2 balls i Hi) as [old ->].
  cbn [mbind option_bind].
  set (sized := {| position := position old; velocity := velocity old;
                   radius := rand k MIN_BALL_RADIUS MAX_BALL_RADIUS;
                   mass := IZR (rand k MIN_BALL_RADIUS MAX_BALL_RADIUS) / 2;
                   color := color old |}).
  destruct (place_ball_spec i 100 (<[i := sized]> balls) (k + 1)%nat)
    as (placed & k' & -> & Hlen & Hne & Hsame); [by rewrite length_insert|].
  cbn [mbind option_bind].
  destruct (Hsame sized) as (ball & Hball & Hr & Hm & _);
    [apply list_lookup_insert_eq; lia|].
  rewrite Hball. cbn [mbind option_bind]. rewrite length_insert in Hlen.
  eexists _, _. split; [done|]. split; [by rewrite length_insert|]. split.
  - intros j Hj. rewrite list_lookup_insert_ne by done.
    rewrite Hne by done. by apply list_lookup_insert_ne.
  - eexists. split; [apply list_lookup_insert_eq; lia|].
    unfold initialized. cbn. rewrite Hr, Hm. cbn. split; [|done].
    apply rand_in_bounds. unfold MIN_BALL_RADIUS, MAX_BALL_RADIUS. lia.
Qed.

(** [InitBalls] returns, and every ball it has gone through has a radius
    between the two bounds and half of it as mass. *)
Lemma InitBalls_spec (balls : list Ball) (numBalls : Z) (calls : nat) :
  (numBalls <= Z.of_nat (length balls))%Z →
  ∃ balls' calls',
    InitBalls rand balls numBalls calls = Some (balls', calls')
    ∧ length balls' = length balls
    ∧ ∀ i, (i < Z.to_nat numBalls)%nat →
        ∃ ball, balls' !! i = Some ball ∧ initialized ball.
Proof.
  intros Hn. unfold InitBalls.
  destruct (for_loop_total
              (λ i (st : list Ball * nat),
                 length st.1 = length balls
                 ∧ ∀ j, (j < i)%nat →
                     ∃ ball, st.1 !! j = Some ball ∧ initialized ball)
              (init_ball rand) 0 (Z.to_nat numBalls) (balls, calls))
    as ([balls' calls'] & Hrun & Hlen & Hinit).
  - split; [done|]. intros j Hj. lia.
  - intros i [t k] Hi [Hlen Hdone]. cbn [fst] in *.
    destruct (init_ball_spec i t k) as (t' & k' & Hrun & Hlen' & Hne & Hball);
      [lia|].
    exists (t', k'). split; [done|]. cbn [fst]. split; [congruence|].
    intros j Hj. destruct (decide (j = i)) as [->|Hji]; [done|].
    rewrite Hne by done. apply Hdone. lia.
  - exists balls', calls'. by repeat split.
Qed.

End Initializer.

(** C7. No division by zero in the collision step.  After [InitBalls]
    (with a random source that respects its bounds) every ball has
    [mass = radius / 2 > 0]; on every pair of such balls
    [CheckBallCollision] evaluates no division with a zero divisor, and
    when the two centres coincide it returns both balls unchanged. *)
Theorem CheckBallCollision_divisions_defined (e : R) (rand : nat → Z → Z → Z)
    (balls : list Ball) (numBalls : Z) (calls : nat) :
  in_bounds rand →
  (numBalls <= Z.of_nat (length balls))%Z →
  ∃ (balls' : list Ball) (calls' : nat),
    InitBalls rand balls numBalls calls = Some (balls', calls')
    ∧ ∀ (i j : nat) (b1 b2 : Ball),
        (i < Z.to_nat numBalls)%nat → (j < Z.to_nat numBalls)%nat →
        balls' !! i = Some b1 → balls' !! j = Some b2 →
        (MIN_BALL_RADIUS <= radius b1)%Z ∧ mass b1 = IZR (radius b1) / 2
        ∧ (MIN_BALL_RADIUS <= radius b2)%Z ∧ mass b2 = IZR (radius b2) / 2
        ∧ 0 < mass b1 ∧ 0 < mass b2
        ∧ CheckBallCollision_checked e b1 b2 = Some (CheckBallCollision e b1 b2)
        ∧ (dist_sq b1 b2 = 0 → CheckBallCollision e b1 b2 = (b1, b2)).
Proof.
  intros Hrand Hn.
  destruct (InitBalls_spec rand Hrand balls numBalls calls Hn)
    as (balls' & calls' & Hrun & _ & Hinit).
  exists balls', calls'. split; [done|].
  intros i j b1 b2 Hi Hj Hb1 Hb2.
  destruct (Hinit i Hi) as (? & ? & Hi1). destruct (Hinit j Hj) as (? & ? & Hi2).
  simplify_eq.
  pose proof (initialized_mass_pos _ Hi1). pose proof (initialized_mass_pos _ Hi2).
  destruct Hi1 as [[? _] ?], Hi2 as [[? _] ?].
  repeat split; try done.
  - by apply CheckBallCollision_checked_total.
  - intros Hzero. apply CheckBallCollision_apart. intros [_ Hpos]. lra.
Qed.

(** ** The statements at concrete balls *)

(** Two discs 39 apart: in contact, with the relative speed as normal
    velocity. *)
Lemma disc_contact (v1 v2 : R) :
  in_contact (disc 0 v1) (disc 39 v2)
  ∧ velocity_along_normal (disc 0 v1) (disc 39 v2) = v2 - v1.
Proof.
  assert (Hd2 : dist_sq (disc 0 v1) (disc 39 v2) = 39 * 39)
    by (unfold dist_sq; cbn; ring).
  assert (Hmin : min_dist (disc 0 v1) (disc 39 v2) = 40) by reflexivity.
  assert (Hd : sqrt (dist_sq (disc 0 v1) (disc 39 v2)) = 39)
    by (apply sqrt_of_square; lra).
  split; [split; rewrite Hd2, ?Hmin; lra|].
  unfold velocity_along_normal, normal. rewrite Hd. cbn. field.
Qed.

Lemma disc_centres (v1 v2 : R) : position (disc 0 v1) ≠ position (disc 39 v2).
Proof. unfold disc. cbn. intros [= H]. lra. Qed.

Lemma disc_mass (px vx : R) : 0 < mass (disc px vx).
Proof. cbn. lra. Qed.

Lemma CheckBallCollision_momentum_witness :
  0 < mass (disc 0 50) ∧ 0 < mass (disc 39 (- 50))
  ∧ position (disc 0 50) ≠ position (disc 39 (- 50))
  ∧ momentum
      (CheckBallCollision RESTITUTION_damped (disc 0 50) (disc 39 (- 50))).1
      (CheckBallCollision RESTITUTION_damped (disc 0 50) (disc 39 (- 50))).2
    = momentum (disc 0 50) (disc 39 (- 50)).
Proof.
  pose proof (disc_mass 0 50) as Hm1. pose proof (disc_mass 39 (- 50)) as Hm2.
  pose proof (disc_centres 50 (- 50)) as Hp.
  split; [exact Hm1|]. split; [exact Hm2|]. split; [exact Hp|].
  exact (CheckBallCollision_momentum RESTITUTION_damped _ _ Hm1 Hm2 Hp).
Defined.




Lemma CheckBallCollision_already_separating_witness :
  in_contact (disc 0 (- 50)) (disc 39 50)
  ∧ velocity_along_normal (disc 0 (- 50)) (disc 39 50) > 0
  ∧ velocity (CheckBallCollision RESTITUTION_elastic (disc 0 (- 50)) (disc 39 50)).1
    = velocity (disc 0 (- 50))
  ∧ velocity (CheckBallCollision RESTITUTION_elastic (disc 0 (- 50)) (disc 39 50)).2
    = velocity (disc 39 50).
Proof.
  destruct (disc_contact (- 50) 50) as [Hc Hvn].
  assert (Hgt : velocity_along_normal (disc 0 (- 50)) (disc 39 50) > 0)
    by (rewrite Hvn; lra).
  split; [exact Hc|]. split; [exact Hgt|].
  destruct (CheckBallCollision_already_separating RESTITUTION_elastic _ _ Hc Hgt)
    as (Hv1 & Hv2 & _).
  by split.
Defined.

Lemma UpdateFrame_keeps_bodies_witness :
  (2 <= Z.of_nat (length [resting_ball; incoming_ball]))%Z
  ∧ is_Some (UpdateFrame RESTITUTION_elastic 0.0625 [resting_ball; incoming_ball] 2).
Proof.
  assert (Hn : (2 <= Z.of_nat (length [resting_ball; incoming_ball]))%Z)
    by (cbn; lia).
  split; [exact Hn|].
  exact (proj1 (UpdateFrame_keeps_bodies RESTITUTION_elastic 0.0625
                  [resting_ball; incoming_ball] 2) Hn).
Defined.



Lemma lowest_in_bounds : in_bounds lowest.
Proof. intros k lo hi Hle. unfold lowest. lia. Qed.

Lemma CheckBallCollision_divisions_defined_witness :
  in_bounds lowest
  ∧ ∃ (balls' : list Ball) (calls' : nat),
      InitBalls lowest [resting_ball; incoming_ball] 2 0 = Some (balls', calls')
      ∧ ∀ b1 b2 : Ball,
          balls' !! 0%nat = Some b1 → balls' !! 1%nat = Some b2 →
          CheckBallCollision_checked RESTITUTION_elastic b1 b2
          = Some (CheckBallCollision RESTITUTION_elastic b1 b2).
Proof.
  split; [exact lowest_in_bounds|].
  destruct (CheckBallCollision_divisions_defined RESTITUTION_elastic lowest
              [resting_ball; incoming_ball] 2 0 lowest_in_bounds)
    as (balls' & calls' & Hrun & Hpairs); [cbn; lia|].
  exists balls', calls'. split; [exact Hrun|].
  intros b1 b2 Hb1 Hb2.
  apply (Hpairs 0%nat 1%nat b1 b2); [lia|lia|exact Hb1|exact Hb2].
Defined.

(** * Further properties of the routines *)

(** ** [CheckBallCollision]: what one call achieves *)

Section Resolution.

Variable e : R.


Lemma dist_sq_positions (b1 b2 c1 c2 : Ball) :
  position c1 = position b1 → position c2 = position b2 →
  dist_sq c1 c2 = dist_sq b1 b2.
Proof. unfold dist_sq. by intros -> ->. Qed.

Lemma min_dist_radii (b1 b2 c1 c2 : Ball) :
  radius c1 = radius b1 → radius c2 = radius b2 →
  min_dist c1 c2 = min_dist b1 b2.
Proof. unfold min_dist. by intros -> ->. Qed.





End Resolution.

Section Restitution.

Variable e : R.



End Restitution.

(** ** [CheckBallCollision] does not depend on the order of the pair *)

Section Symmetry.

Variable e : R.

Lemma dist_sq_sym (b1 b2 : Ball) : dist_sq b2 b1 = dist_sq b1 b2.
Proof. unfold dist_sq. ring. Qed.

Lemma min_dist_sym (b1 b2 : Ball) : min_dist b2 b1 = min_dist b1 b2.
Proof. unfold min_dist, Int.add. by rewrite Z.add_comm. Qed.

Lemma in_contact_sym (b1 b2 : Ball) : in_contact b2 b1 → in_contact b1 b2.
Proof. unfold in_contact. by rewrite dist_sq_sym, min_dist_sym. Qed.

Lemma normal_sym (b1 b2 : Ball) :
  normal b2 b1 = {| x := - x (normal b1 b2); y := - y (normal b1 b2) |}.
Proof. unfold normal. rewrite dist_sq_sym. cbn. f_equal; unfold Rdiv; ring. Qed.

Lemma velocity_along_normal_sym (b1 b2 : Ball) :
  velocity_along_normal b2 b1 = velocity_along_normal b1 b2.
Proof. unfold velocity_along_normal. rewrite normal_sym. cbn. ring. Qed.

Lemma half_overlap_sym (b1 b2 : Ball) : half_overlap b2 b1 = half_overlap b1 b2.
Proof. unfold half_overlap. by rewrite dist_sq_sym, min_dist_sym. Qed.

Lemma impulse_sym (b1 b2 : Ball) : impulse e b2 b1 = impulse e b1 b2.
Proof.
  unfold impulse. rewrite velocity_along_normal_sym.
  by rewrite (Rplus_comm (1 / mass b2)).
Qed.

Lemma pushed_apart_sym (b1 b2 : Ball) :
  pushed_apart b2 b1 = ((pushed_apart b1 b2).2, (pushed_apart b1 b2).1).
Proof.
  unfold pushed_apart. rewrite half_overlap_sym, normal_sym. cbn.
  f_equal; f_equal; f_equal; ring.
Qed.

(** X4. Calling the routine on [(b2, b1)] gives the result of the call on
    [(b1, b2)], swapped. *)
Theorem CheckBallCollision_symmetric (b1 b2 : Ball) :
  CheckBallCollision e b2 b1
  = ((CheckBallCollision e b1 b2).2, (CheckBallCollision e b1 b2).1).
Proof.
  destruct (decide (in_contact b1 b2)) as [Hc|Hc].
  - assert (Hc' : in_contact b2 b1) by (by apply in_contact_sym).
    destruct (decide (velocity_along_normal b1 b2 > 0)) as [Hvn|Hvn].
    + rewrite (CheckBallCollision_separating e b1 b2) by done.
      rewrite CheckBallCollision_separating
        by (done || by rewrite velocity_along_normal_sym).
      apply pushed_apart_sym.
    + rewrite (CheckBallCollision_impulse e b1 b2) by (done || lra).
      rewrite CheckBallCollision_impulse
        by (done || rewrite velocity_along_normal_sym; lra).
      rewrite pushed_apart_sym, impulse_sym, normal_sym. cbn.
      f_equal; f_equal; f_equal; unfold Rdiv; ring.
  - rewrite (CheckBallCollision_apart e b1 b2) by done.
    apply CheckBallCollision_apart. intros Hc'. by apply Hc, in_contact_sym.
Qed.

End Symmetry.

(** ** [CheckWallCollision] *)

Section Walls.

Variable e : R.

(** When none of the four tests fires the ball is returned as it is. *)
Lemma CheckWallCollision_no_test (ball : Ball) :
  ¬ x (position ball) - IZR (radius ball) <= 0 →
  ¬ x (position ball) + IZR (radius ball) >= IZR WIDTH →
  ¬ y (position ball) - IZR (radius ball) <= 0 →
  ¬ y (position ball) + IZR (radius ball) >= IZR HEIGHT →
  CheckWallCollision e ball = ball.
Proof.
  intros Hx1 Hx2 Hy1 Hy2. unfold CheckWallCollision. cbv zeta.
  rewrite (bool_decide_eq_false_2 (x (position ball) - _ <= 0)) by done.
  rewrite (bool_decide_eq_false_2 (x (position ball) + _ >= _)) by done.
  rewrite (bool_decide_eq_false_2 (y (position ball) - _ <= 0)) by done.
  by rewrite (bool_decide_eq_false_2 (y (position ball) + _ >= _)).
Qed.

(** X5. A ball that touches no wall is returned as it is. *)
Theorem CheckWallCollision_clear (ball : Ball) :
  clear_of_walls ball → CheckWallCollision e ball = ball.
Proof.
  unfold clear_of_walls. intros [[Hx1 Hx2] [Hy1 Hy2]].
  apply CheckWallCollision_no_test; lra.
Qed.

(** Each velocity component is kept or multiplied by [- e]. *)
Lemma CheckWallCollision_velocity (ball : Ball) :
  (x (velocity (CheckWallCollision e ball)) = x (velocity ball)
   ∨ x (velocity (CheckWallCollision e ball)) = x (velocity ball) * - e)
  ∧ (y (velocity (CheckWallCollision e ball)) = y (velocity ball)
     ∨ y (velocity (CheckWallCollision e ball)) = y (velocity ball) * - e).
Proof.
  unfold CheckWallCollision. cbv zeta.
  repeat case_bool_decide; cbn; auto.
Qed.

(** The squares of the velocity components do not grow. *)
Lemma CheckWallCollision_squares (ball : Ball) :
  - 1 <= e <= 1 →
  x (velocity (CheckWallCollision e ball)) * x (velocity (CheckWallCollision e ball))
  <= x (velocity ball) * x (velocity ball)
  ∧ y (velocity (CheckWallCollision e ball)) * y (velocity (CheckWallCollision e ball))
    <= y (velocity ball) * y (velocity ball).
Proof.
  intros He. destruct (CheckWallCollision_velocity ball) as [Hx Hy].
  pose proof (Rle_0_sqr (x (velocity ball))) as Hsx.
  pose proof (Rle_0_sqr (y (velocity ball))) as Hsy. unfold Rsqr in *.
  assert (He2 : 0 <= 1 - e * e) by nra.
  split; [destruct Hx as [->| ->]|destruct Hy as [->| ->]]; nra.
Qed.

(** X7. A bounce never adds kinetic energy when the coefficient is at most 1
    in absolute value. *)
Theorem CheckWallCollision_energy (ball : Ball) :
  - 1 <= e <= 1 → 0 <= mass ball →
  kinetic_energy (CheckWallCollision e ball) <= kinetic_energy ball.
Proof.
  intros He Hm. unfold kinetic_energy.
  destruct (CheckWallCollision_same_body e ball) as (_ & -> & _).
  destruct (CheckWallCollision_velocity ball) as [Hx Hy].
  set (vx := x (velocity ball)) in *. set (vy := y (velocity ball)) in *.
  assert (He2 : 0 <= 1 - e * e) by nra.
  assert (Hvx : x (velocity (CheckWallCollision e ball))
                * x (velocity (CheckWallCollision e ball)) <= vx * vx).
  { destruct Hx as [->| ->]; [lra|]. pose proof (Rle_0_sqr vx) as Hsq.
    unfold Rsqr in Hsq. nra. }
  assert (Hvy : y (velocity (CheckWallCollision e ball))
                * y (velocity (CheckWallCollision e ball)) <= vy * vy).
  { destruct Hy as [->| ->]; [lra|]. pose proof (Rle_0_sqr vy) as Hsq.
    unfold Rsqr in Hsq. nra. }
  rewrite half_eq. nra.
Qed.

(** With coefficient 1 a bounce keeps the kinetic energy. *)
Lemma wall_bounce_elastic (ball : Ball) :
  kinetic_energy (CheckWallCollision 1 ball) = kinetic_energy ball.
Proof.
  unfold kinetic_energy, CheckWallCollision. cbv zeta.
  repeat case_bool_decide; cbn; ring.
Qed.

(** X6. The wall check does not move a ball that lies inside the window; it
    can still reverse the velocity of a ball that touches a wall. *)
Theorem CheckWallCollision_inside_fixed (ball : Ball) :
  (0 <= radius ball)%Z → inside_window ball →
  position (CheckWallCollision e ball) = position ball.
Proof.
  intros H0 Hin. destruct (inside_window_fits ball Hin) as [HW HH].
  unfold WIDTH, HEIGHT in *.
  assert (Hw : Int.sub 800 (radius ball) = (800 - radius ball)%Z).
  { apply wrap_small. unfold Int.in_range, Int.min_signed, Int.max_signed. lia. }
  assert (Hh : Int.sub 600 (radius ball) = (600 - radius ball)%Z).
  { apply wrap_small. unfold Int.in_range, Int.min_signed, Int.max_signed. lia. }
  destruct Hin as [[Hx1 Hx2] [Hy1 Hy2]]. unfold WIDTH, HEIGHT in *.
  destruct (position ball) as [px py] eqn:Hpos. cbn in *.
  unfold CheckWallCollision, WIDTH, HEIGHT. cbv zeta. rewrite Hpos. cbn.
  repeat case_bool_decide; cbn in *; rewrite ?Hpos in *; cbn in *;
    rewrite ?Hw, ?Hh, ?minus_IZR; f_equal; lra.
Qed.

End Walls.

(** ** [CalculateTotalKineticEnergy] *)

Lemma total_kinetic_energy_app (l1 l2 : list Ball) :
  total_kinetic_energy (l1 ++ l2)
  = total_kinetic_energy l1 + total_kinetic_energy l2.
Proof.
  unfold total_kinetic_energy. induction l1 as [|ball l1 IH]; cbn; [lra|].
  rewrite IH. lra.
Qed.

Lemma total_kinetic_energy_insert (balls : list Ball) (i : nat) (ball ball' : Ball) :
  balls !! i = Some ball →
  total_kinetic_energy (<[i := ball']> balls)
  = total_kinetic_energy balls - kinetic_energy ball + kinetic_energy ball'.
Proof.
  unfold total_kinetic_energy. revert i.
  induction balls as [|b0 balls IH]; intros [|i] Hi; simplify_eq/=; [lra|].
  rewrite (IH i) by done. lra.
Qed.

Lemma energy_step_spec (balls : list Ball) (i : nat) (ball : Ball) (acc : R) :
  balls !! i = Some ball →
  energy_step balls i acc = Some (acc + kinetic_energy ball).
Proof. intros Hi. unfold energy_step. by rewrite Hi. Qed.

(** The loop adds up the kinetic energies of the first [numBalls] balls. *)
Lemma CalculateTotalKineticEnergy_take (balls : list Ball) (numBalls : Z) :
  (numBalls <= Z.of_nat (length balls))%Z →
  CalculateTotalKineticEnergy balls numBalls
  = Some (total_kinetic_energy (take (Z.to_nat numBalls) balls)).
Proof.
  intros Hn. unfold CalculateTotalKineticEnergy.
  destruct (for_loop_total
              (λ i acc, acc = total_kinetic_energy (take i balls))
              (energy_step balls) 0 (Z.to_nat numBalls) 0)
    as (acc & -> & ->); [done| |done].
  intros i acc Hi ->.
  destruct (lookup_lt_is_Some_2 balls i) as [ball Hball]; [lia|].
  exists (total_kinetic_energy (take i balls) + kinetic_energy ball).
  split; [by apply energy_step_spec|].
  rewrite (take_S_r _ _ _ Hball), total_kinetic_energy_app.
  unfold total_kinetic_energy at 3. cbn. lra.
Qed.

(** X8. [CalculateTotalKineticEnergy] returns the sum of
    [0.5 * mass * (vx * vx + vy * vy)] over the first [numBalls] balls,
    the same whatever the order of the summation; for a count of zero or
    less it returns 0, and for the whole array the sum over all balls. *)
Theorem CalculateTotalKineticEnergy_sum (balls : list Ball) (numBalls : Z) :
  (numBalls <= Z.of_nat (length balls))%Z →
  CalculateTotalKineticEnergy balls numBalls
  = Some (total_kinetic_energy (take (Z.to_nat numBalls) balls))
  ∧ ((numBalls <= 0)%Z → CalculateTotalKineticEnergy balls numBalls = Some 0)
  ∧ (numBalls = Z.of_nat (length balls) →
     CalculateTotalKineticEnergy balls numBalls
     = Some (total_kinetic_energy balls)).
Proof.
  intros Hn. pose proof (CalculateTotalKineticEnergy_take balls numBalls Hn) as Hsum.
  split; [done|]. split.
  - intros Hneg. rewrite Hsum. by replace (Z.to_nat numBalls) with 0%nat by lia.
  - intros ->. rewrite Hsum, Nat2Z.id. by rewrite firstn_all.
Qed.

(** X9. With non-negative masses the total is never negative. *)
Theorem CalculateTotalKineticEnergy_nonneg (balls : list Ball) (numBalls : Z)
    (energy : R) :
  Forall (λ ball, 0 <= mass ball) balls →
  CalculateTotalKineticEnergy balls numBalls = Some energy →
  0 <= energy.
Proof.
  intros Hmass Hrun. unfold CalculateTotalKineticEnergy in Hrun.
  apply (for_loop_invariant (λ _ acc, 0 <= acc)) in Hrun; [done|lra|].
  intros i acc acc' _ Hacc Hstep. unfold energy_step in Hstep.
  destruct (balls !! i) as [ball|] eqn:Hball; simplify_eq/=.
  pose proof (Forall_lookup_1 _ _ _ _ Hmass Hball) as Hm. cbn in Hm.
  pose proof (Rle_0_sqr (x (velocity ball))) as Hx.
  pose proof (Rle_0_sqr (y (velocity ball))) as Hy.
  unfold Rsqr in *. rewrite half_eq.
  assert (Hhalf : 0 <= / 2 * mass ball) by lra.
  assert (Hspeed : 0 <= x (velocity ball) * x (velocity ball)
                        + y (velocity ball) * y (velocity ball)) by lra.
  pose proof (Rmult_le_pos _ _ Hhalf Hspeed). lra.
Qed.

(** ** Kinetic energy across a frame *)

Section FrameEnergy.

Variable e : R.
Hypothesis e_range : 0 <= e <= 1.
Variable start : list Ball.
Hypothesis start_masses : Forall (λ ball, 0 < mass ball) start.
Variable n : nat.

Lemma energy_bounded_mass (balls : list Ball) (i : nat) (ball : Ball) :
  energy_bounded e n start balls → balls !! i = Some ball → 0 < mass ball.
Proof.
  intros (Hk & _) Hi.
  destruct (Forall2_lookup_l _ _ _ _ _ Hk Hi) as (b0 & Hb0 & _ & Hm & _).
  rewrite Hm. apply (Forall_lookup_1 _ _ _ _ start_masses Hb0).
Qed.

(** One pairwise collision, whatever its path. *)
Lemma CheckBallCollision_pair_energy (b1 b2 : Ball) :
  0 < mass b1 → 0 < mass b2 →
  kinetic_energy (CheckBallCollision e b1 b2).1
  + kinetic_energy (CheckBallCollision e b1 b2).2
  <= kinetic_energy b1 + kinetic_energy b2
  ∧ (e = 1 →
     kinetic_energy (CheckBallCollision e b1 b2).1
     + kinetic_energy (CheckBallCollision e b1 b2).2
     = kinetic_energy b1 + kinetic_energy b2).
Proof.
  intros Hm1 Hm2.
  destruct (decide (in_contact b1 b2)) as [Hc|Hc];
    [|rewrite CheckBallCollision_apart by done; cbn; split; [lra|done]].
  destruct (decide (velocity_along_normal b1 b2 > 0)) as [Hvn|Hvn].
  - rewrite CheckBallCollision_separating by done.
    unfold kinetic_energy, pushed_apart. cbn. split; [lra|done].
  - assert (Hle : velocity_along_normal b1 b2 <= 0) by lra.
    rewrite (CheckBallCollision_energy e b1 b2 Hm1 Hm2 Hc Hle).
    pose proof (reduced_mass_pos _ _ Hm1 Hm2) as HD.
    set (vn := velocity_along_normal b1 b2).
    assert (Hq : 0 <= vn * vn / (1 / mass b1 + 1 / mass b2)).
    { apply Rmult_le_pos; [apply Rle_0_sqr|]. left. by apply Rinv_0_lt_compat. }
    split.
    + assert (Hk : 0 <= (1 - e * e) / 2) by nra.
      pose proof (Rmult_le_pos _ _ Hk Hq). lra.
    + intros ->. lra.
Qed.

Lemma energy_bounded_insert (balls : list Ball) (i : nat) (ball ball' : Ball) :
  energy_bounded e n start balls → (i < n)%nat →
  balls !! i = Some ball → same_body ball' ball →
  kinetic_energy ball' <= kinetic_energy ball →
  (e = 1 → kinetic_energy ball' = kinetic_energy ball) →
  energy_bounded e n start (<[i := ball']> balls).
Proof.
  intros (Hk & Hle & Heq) Hi Hball Hsame Hke Hke1.
  split; [by eapply same_body_insert|].
  rewrite take_insert_lt by done.
  rewrite (total_kinetic_energy_insert _ _ ball) by (by rewrite lookup_take_lt).
  split; [lra|]. intros He. rewrite <- (Heq He), (Hke1 He). lra.
Qed.

Lemma move_step_energy (deltaTime : R) (i : nat) (balls balls' : list Ball) :
  energy_bounded e n start balls → (i < n)%nat →
  move_step deltaTime i balls = Some balls' → energy_bounded e n start balls'.
Proof.
  unfold move_step. intros Hinv Hi Hrun.
  destruct (balls !! i) as [ball|] eqn:Hball; simplify_eq/=.
  eapply energy_bounded_insert; [done..| |done].
  unfold kinetic_energy. cbn. lra.
Qed.

Lemma pair_step_energy (i j : nat) (balls balls' : list Ball) :
  energy_bounded e n start balls → (i < j < n)%nat →
  pair_step e i j balls = Some balls' → energy_bounded e n start balls'.
Proof.
  unfold pair_step. intros Hinv Hij Hrun.
  destruct (balls !! i) as [b1|] eqn:Hb1; [|done].
  destruct (balls !! j) as [b2|] eqn:Hb2; [|done]. cbn in Hrun.
  pose proof (energy_bounded_mass _ _ _ Hinv Hb1) as Hm1.
  pose proof (energy_bounded_mass _ _ _ Hinv Hb2) as Hm2.
  pose proof (CheckBallCollision_same_body e b1 b2) as [Hs1 Hs2].
  pose proof (CheckBallCollision_pair_energy b1 b2 Hm1 Hm2) as [Hle Heq].
  destruct (CheckBallCollision e b1 b2) as [b1' b2']. simplify_eq/=.
  destruct Hinv as (Hk & Hle0 & Heq0).
  assert (Hk1 : same_bodies (<[i := b1']> balls) start)
    by (by eapply same_body_insert).
  assert (Hj : <[i := b1']> balls !! j = Some b2)
    by (rewrite list_lookup_insert_ne; [done|lia]).
  split; [by eapply same_body_insert|].
  rewrite !take_insert_lt by lia.
  rewrite (total_kinetic_energy_insert _ _ b2)
    by (rewrite <- take_insert_lt, lookup_take_lt by lia; done).
  rewrite (total_kinetic_energy_insert _ _ b1) by (by rewrite lookup_take_lt; [|lia]).
  split; [lra|]. intros He. specialize (Heq He). specialize (Heq0 He). lra.
Qed.

Lemma collide_step_energy (numBalls i : nat) (balls balls' : list Ball) :
  energy_bounded e n start balls → (i < n)%nat → (numBalls ≤ n)%nat →
  collide_step e numBalls i balls = Some balls' →
  energy_bounded e n start balls'.
Proof.
  unfold collide_step. intros Hinv Hi Hnum Hrun.
  destruct (balls !! i) as [ball|] eqn:Hball; [|done]. cbn in Hrun.
  pose proof (energy_bounded_mass _ _ _ Hinv Hball) as Hm.
  apply (for_loop_invariant (λ _ t, energy_bounded e n start t)) in Hrun;
    [done| |].
  - eapply energy_bounded_insert; [done..| | |].
    + apply CheckWallCollision_same_body.
    + destruct (CheckWallCollision_squares e ball) as [Hx Hy]; [lra|].
      unfold kinetic_energy.
      destruct (CheckWallCollision_same_body e ball) as (_ & -> & _).
      rewrite half_eq. nra.
    + intros ->. apply wall_bounce_elastic.
  - intros j t t' Hj Ht. apply pair_step_energy; [done|lia].
Qed.

Lemma energy_bounded_refl : energy_bounded e n start start.
Proof. split; [apply same_bodies_refl|]. split; [lra|done]. Qed.

Lemma UpdateFrame_energy_bounded (deltaTime : R) (balls' : list Ball) :
  UpdateFrame e deltaTime start (Z.of_nat n) = Some balls' →
  energy_bounded e n start balls'.
Proof.
  unfold UpdateFrame. rewrite Nat2Z.id. intros Hrun.
  destruct (for_loop (move_step deltaTime) 0 n start) as [moved|] eqn:Hmove;
    [|done].
  cbn in Hrun.
  apply (for_loop_invariant (λ _ t, energy_bounded e n start t)) in Hmove;
    [|apply energy_bounded_refl
     |intros i t t' Hi Ht; apply move_step_energy; [done|lia]].
  apply (for_loop_invariant (λ _ t, energy_bounded e n start t)) in Hrun;
    [done|done|].
  intros i t t' Hi Ht. apply collide_step_energy; [done|lia|lia].
Qed.

End FrameEnergy.

Lemma energy_bounded_trans (e : R) (n : nat) (start mid balls : list Ball) :
  energy_bounded e n start mid → energy_bounded e n mid balls →
  energy_bounded e n start balls.
Proof.
  intros (Hk1 & Hle1 & Heq1) (Hk2 & Hle2 & Heq2).
  split; [unfold same_bodies in *; by etrans|].
  split; [lra|]. intros He. by rewrite (Heq2 He), (Heq1 He).
Qed.

Lemma same_bodies_masses (start balls : list Ball) :
  same_bodies balls start → Forall (λ ball, 0 < mass ball) start →
  Forall (λ ball, 0 < mass ball) balls.
Proof.
  intros Hk Hm. apply Forall_lookup_2. intros i ball Hi.
  destruct (Forall2_lookup_l _ _ _ _ _ Hk Hi) as (b0 & Hb0 & _ & -> & _).
  apply (Forall_lookup_1 _ _ _ _ Hm Hb0).
Qed.

Lemma UpdateFrame_count (e deltaTime : R) (balls : list Ball) (numBalls : Z) :
  UpdateFrame e deltaTime balls numBalls
  = UpdateFrame e deltaTime balls (Z.of_nat (Z.to_nat numBalls)).
Proof. unfold UpdateFrame. by rewrite Nat2Z.id. Qed.

(** Any number of frames runs to its end on a count inside the array, and
    keeps the energy invariant. *)
Lemma UpdateFrames_energy_bounded (e : R) (start : list Ball) (numBalls : Z)
    (frames : list R) :
  0 <= e <= 1 → Forall (λ ball, 0 < mass ball) start →
  (numBalls <= Z.of_nat (length start))%Z →
  ∀ balls : list Ball,
    energy_bounded e (Z.to_nat numBalls) start balls →
    ∃ balls',
      UpdateFrames e frames balls numBalls = Some balls'
      ∧ energy_bounded e (Z.to_nat numBalls) start balls'.
Proof.
  intros He Hm Hn.
  induction frames as [|deltaTime frames IH]; intros balls Hinv;
    [by exists balls|].
  pose proof (kept_length _ _ (proj1 Hinv)) as Hlen.
  destruct (UpdateFrame_total e deltaTime balls numBalls) as [mid Hmid]; [lia|].
  cbn. rewrite Hmid. cbn. apply IH.
  apply (energy_bounded_trans _ _ _ balls); [done|].
  rewrite UpdateFrame_count in Hmid.
  assert (Hmb : Forall (λ ball, 0 < mass ball) balls)
    by (apply (same_bodies_masses start); [apply Hinv|done]).
  by apply (UpdateFrame_energy_bounded e He balls Hmb) in Hmid.
Qed.


(** X11. With coefficient 1 the total kinetic energy is the same after any
    number of frames. *)
Theorem UpdateFrames_energy_conserved (balls : list Ball) (numBalls : Z)
    (frames : list R) :
  Forall (λ ball, 0 < mass ball) balls →
  (numBalls <= Z.of_nat (length balls))%Z →
  ∃ (balls' : list Ball) (energy : R),
    UpdateFrames RESTITUTION_elastic frames balls numBalls = Some balls'
    ∧ CalculateTotalKineticEnergy balls numBalls = Some energy
    ∧ CalculateTotalKineticEnergy balls' numBalls = Some energy.
Proof.
  intros Hm Hn.
  assert (He : 0 <= RESTITUTION_elastic <= 1) by (unfold RESTITUTION_elastic; lra).
  destruct (UpdateFrames_energy_bounded _ balls numBalls frames He Hm Hn balls)
    as (balls' & Hrun & Hk & _ & Heq); [by apply energy_bounded_refl|].
  pose proof (kept_length _ _ Hk) as Hlen.
  eexists balls', _. split; [done|].
  split; [by apply CalculateTotalKineticEnergy_take|].
  rewrite CalculateTotalKineticEnergy_take by lia. f_equal. by apply Heq.
Qed.

(** ** What a frame leaves alone *)

Section Untouched.

Variable e : R.

(** X12. Balls at indices from [numBalls] on are not written. *)
Theorem UpdateFrame_beyond_count (deltaTime : R) (balls balls' : list Ball)
    (numBalls : Z) :
  UpdateFrame e deltaTime balls numBalls = Some balls' →
  ∀ k : nat, (Z.to_nat numBalls ≤ k)%nat → balls' !! k = balls !! k.
Proof.
  unfold UpdateFrame. set (n := Z.to_nat numBalls). intros Hrun.
  destruct (for_loop (move_step deltaTime) 0 n balls) as [moved|] eqn:Hmove;
    [|done].
  cbn in Hrun.
  set (P := λ t : list Ball, ∀ k, (n ≤ k)%nat → t !! k = balls !! k).
  assert (Hmoved : P moved).
  { apply (for_loop_invariant (λ _, P)) in Hmove; [done|done|].
    intros i t t' Hi Ht Hstep k Hk. unfold move_step in Hstep.
    destruct (t !! i) as [ball|]; simplify_eq/=.
    rewrite list_lookup_insert_ne by lia. by apply Ht. }
  apply (for_loop_invariant (λ _, P)) in Hrun; [done|done|].
  intros i t t' Hi Ht Hstep. unfold collide_step in Hstep.
  destruct (t !! i) as [ball|]; [|done]. cbn in Hstep.
  apply (for_loop_invariant (λ _, P)) in Hstep; [done| |].
  - intros k Hk. rewrite list_lookup_insert_ne by lia. by apply Ht.
  - intros j u u' Hj Hu Hpair k Hk. unfold pair_step in Hpair.
    destruct (u !! i) as [b1|]; [|done]. destruct (u !! j) as [b2|]; [|done].
    cbn in Hpair. destruct (CheckBallCollision e b1 b2) as [b1' b2'].
    simplify_eq/=. rewrite !list_lookup_insert_ne by lia. by apply Hu.
Qed.

Lemma free_flight_lookup (deltaTime : R) (n : nat) (balls : list Ball) (k : nat) :
  free_flight deltaTime n balls !! k
  = (λ ball, if decide (k < n)%nat then move_ball deltaTime ball else ball)
    <$> balls !! k.
Proof. unfold free_flight. by rewrite list_lookup_imap. Qed.

Lemma free_flight_length (deltaTime : R) (n : nat) (balls : list Ball) :
  length (free_flight deltaTime n balls) = length balls.
Proof. unfold free_flight. by rewrite length_imap. Qed.

(** The first loop of [UpdateFrame] computes [free_flight]. *)
Lemma move_loop_free_flight (deltaTime : R) (balls : list Ball) (n : nat) :
  (n ≤ length balls)%nat →
  for_loop (move_step deltaTime) 0 n balls
  = Some (free_flight deltaTime n balls).
Proof.
  intros Hn.
  destruct (for_loop_total (λ i t, t = free_flight deltaTime i balls)
              (move_step deltaTime) 0 n balls) as (t & -> & ->); [| |done].
  - apply list_eq. intros k. rewrite free_flight_lookup.
    destruct (balls !! k); cbn; [|done]. by rewrite decide_False by lia.
  - intros i t Hi ->. unfold move_step.
    destruct (lookup_lt_is_Some_2 balls i) as [ball Hball]; [lia|].
    rewrite free_flight_lookup, Hball. cbn. rewrite decide_False by lia.
    eexists. split; [done|].
    apply list_eq. intros k. rewrite free_flight_lookup.
    destruct (decide (k = i)) as [->|Hki].
    + rewrite list_lookup_insert_eq by (rewrite free_flight_length; lia).
      rewrite Hball. cbn. by rewrite decide_True by lia.
    + rewrite list_lookup_insert_ne by done. rewrite free_flight_lookup.
      destruct (balls !! k); cbn; [|done].
      destruct (decide (k < i)%nat), (decide (k < S i)%nat); done || lia.
Qed.

(** X13. Free flight: when, after the positions are advanced, no ball touches
    a wall and no two balls are in contact, the frame does nothing else. *)
Theorem UpdateFrame_free_flight (deltaTime : R) (balls : list Ball)
    (numBalls : Z) :
  (numBalls <= Z.of_nat (length balls))%Z →
  (∀ (i : nat) (ball : Ball),
     (i < Z.to_nat numBalls)%nat →
     free_flight deltaTime (Z.to_nat numBalls) balls !! i = Some ball →
     clear_of_walls ball) →
  (∀ (i j : nat) (b1 b2 : Ball),
     (i < j < Z.to_nat numBalls)%nat →
     free_flight deltaTime (Z.to_nat numBalls) balls !! i = Some b1 →
     free_flight deltaTime (Z.to_nat numBalls) balls !! j = Some b2 →
     ¬ in_contact b1 b2) →
  UpdateFrame e deltaTime balls numBalls
  = Some (free_flight deltaTime (Z.to_nat numBalls) balls).
Proof.
  unfold UpdateFrame. set (n := Z.to_nat numBalls). intros Hn Hwalls Hpairs.
  rewrite move_loop_free_flight by lia. cbn [mbind option_bind].
  set (moved := free_flight deltaTime n balls) in *.
  assert (Hlen : length moved = length balls) by apply free_flight_length.
  destruct (for_loop_total (λ _ t, t = moved) (collide_step e n) 0 n moved)
    as (t & -> & ->); [done| |done].
  intros i t Hi ->. unfold collide_step.
  destruct (lookup_lt_is_Some_2 moved i) as [ball Hball]; [lia|].
  rewrite Hball. cbn [mbind option_bind].
  assert (Hclear : clear_of_walls ball) by (apply (Hwalls i); [lia|done]).
  destruct Hclear as [[Hx1 Hx2] [Hy1 Hy2]].
  rewrite CheckWallCollision_no_test by lra.
  rewrite list_insert_id by done.
  destruct (for_loop_total (λ _ t, t = moved) (pair_step e i) (i + 1)
              (n - (i + 1)) moved) as (t & -> & ->); [done| |by eexists].
  intros j t Hj ->. unfold pair_step. rewrite Hball. cbn [mbind option_bind].
  destruct (lookup_lt_is_Some_2 moved j) as [other Hother]; [lia|].
  rewrite Hother. cbn [mbind option_bind].
  rewrite CheckBallCollision_apart by (apply (Hpairs i j); [lia|done..]).
  eexists. split; [done|].
  rewrite (list_insert_id moved i ball) by done. by apply list_insert_id.
Qed.

End Untouched.

(** ** [InitBalls]: what it produces *)

Lemma float_to_int_IZR (z : Z) : float_to_int (IZR z) = z.
Proof.
  unfold float_to_int. case_decide as Hz.
  - symmetry. apply Int_part_spec. lra.
  - rewrite <- opp_IZR. rewrite <- (Int_part_spec (IZR (- z)) (- z)); [lia|lra].
Qed.

Lemma velocity_bounds :
  float_to_int (- VELOCITY_SCALE) = (- 200)%Z
  ∧ float_to_int VELOCITY_SCALE = 200%Z.
Proof.
  unfold VELOCITY_SCALE. split; [|apply float_to_int_IZR].
  rewrite <- opp_IZR. apply float_to_int_IZR.
Qed.

Section Spawn.

Variable rand : nat → Z → Z → Z.
Hypothesis rand_in_bounds : in_bounds rand.

(** A result [Some true] of the scan means that ball [i] overlaps none of
    the balls scanned. *)
Lemma position_free_true (balls : list Ball) (i : nat) (bi : Ball)
    (j count : nat) :
  balls !! i = Some bi →
  position_free balls i j count = Some true →
  ∀ (j' : nat) (bj : Ball),
    (j ≤ j' < j + count)%nat → balls !! j' = Some bj → ¬ overlapping bj bi.
Proof.
  intros Hbi. revert j. induction count as [|count IH]; intros j Hrun j' bj Hj' Hbj;
    [lia|].
  cbn [position_free] in Hrun. rewrite Hbi in Hrun. cbn in Hrun.
  destruct (balls !! j) as [b0|] eqn:Hb0; [|done]. cbn in Hrun.
  case_bool_decide as Hover; [done|].
  destruct (decide (j' = j)) as [->|Hne].
  - simplify_eq. unfold overlapping, dist_sq. rewrite min_dist_sym. exact Hover.
  - apply (IH (S j) Hrun j' bj); [lia|done].
Qed.

(** The placement loop in full: what it writes, what it draws, and what
    an early exit means. *)
Lemma place_ball_full (i remaining : nat) (balls : list Ball) (k : nat)
    (ball : Ball) :
  balls !! i = Some ball →
  (MIN_BALL_RADIUS <= radius ball <= MAX_BALL_RADIUS)%Z →
  ∃ balls' k' ball',
    place_ball rand i remaining (balls, k) = Some (balls', k')
    ∧ length balls' = length balls
    ∧ (∀ j, j ≠ i → balls' !! j = balls !! j)
    ∧ balls' !! i = Some ball'
    ∧ same_body ball' ball
    ∧ ((0 < remaining)%nat
       ∨ (inside_window ball
          ∧ ∃ px py : Z, position ball = {| x := IZR px; y := IZR py |}) →
       inside_window ball'
       ∧ ∃ px py : Z, position ball' = {| x := IZR px; y := IZR py |})
    ∧ (k ≤ k' ≤ k + 2 * remaining)%nat
    ∧ ((0 < remaining)%nat → (k + 2 ≤ k')%nat)
    ∧ ((k' < k + 2 * remaining)%nat → position_free balls' i 0 i = Some true).
Proof.
  revert balls k ball.
  induction remaining as [|remaining IH]; intros balls k ball Hball Hrad.
  - exists balls, k, ball. cbn.
    split; [done|]. split; [done|]. split; [done|]. split; [done|].
    split; [done|]. split; [|lia]. intros [Hpos|Hin]; [lia|done].
  - assert (Hi : (i < length balls)%nat) by (by eapply lookup_lt_Some).
    cbn [place_ball]. rewrite Hball. cbn [mbind option_bind].
    set (px := rand k (radius ball) (Int.sub WIDTH (radius ball))).
    set (py := rand (k + 1)%nat (radius ball) (Int.sub HEIGHT (radius ball))).
    set (placed_ball := set_position ball {| x := IZR px; y := IZR py |}).
    set (placed := <[i := placed_ball]> balls).
    assert (Hlen : length placed = length balls) by apply length_insert.
    assert (Hat : placed !! i = Some placed_ball)
      by (by apply list_lookup_insert_eq).
    unfold MIN_BALL_RADIUS, MAX_BALL_RADIUS in Hrad.
    assert (Hw : Int.sub WIDTH (radius ball) = (800 - radius ball)%Z).
    { apply wrap_small.
      unfold WIDTH, Int.in_range, Int.min_signed, Int.max_signed. lia. }
    assert (Hh : Int.sub HEIGHT (radius ball) = (600 - radius ball)%Z).
    { apply wrap_small.
      unfold HEIGHT, Int.in_range, Int.min_signed, Int.max_signed. lia. }
    assert (Hpx : (radius ball <= px <= 800 - radius ball)%Z).
    { subst px. rewrite Hw. apply rand_in_bounds. lia. }
    assert (Hpy : (radius ball <= py <= 600 - radius ball)%Z).
    { subst py. rewrite Hh. apply rand_in_bounds. lia. }
    assert (Hinside : inside_window placed_ball).
    { unfold inside_window, WIDTH, HEIGHT. cbn.
      destruct Hpx as [Hx1 Hx2], Hpy as [Hy1 Hy2].
      apply IZR_le in Hx1, Hx2, Hy1, Hy2. rewrite minus_IZR in Hx2, Hy2. lra. }
    destruct (position_free_total placed i 0 i) as [found Hfound]; [lia..|].
    rewrite Hfound. cbn [mbind option_bind]. destruct found.
    + exists placed, (k + 2)%nat, placed_ball.
      split; [done|]. split; [done|]. split.
      { intros j Hj. by apply list_lookup_insert_ne. }
      split; [done|]. split; [done|]. split; [by eauto|].
      split; [lia|]. split; [lia|]. done.
    + destruct (IH placed (k + 2)%nat placed_ball Hat)
        as (balls' & k' & ball' & -> & Hlen' & Hne & Hat' & Hsame & Hin & Hk & Hk2
            & Hfree); [done|].
      exists balls', k', ball'.
      split; [done|]. split; [congruence|]. split.
      { intros j Hj. rewrite Hne by done. by apply list_lookup_insert_ne. }
      split; [done|]. split; [done|]. split.
      { intros _. apply Hin. right. by eauto. }
      split; [lia|]. split; [lia|]. intros Hlt. apply Hfree. lia.
Qed.

End Spawn.

Section Rounds.

Variable rand : nat → Z → Z → Z.
Hypothesis rand_in_bounds : in_bounds rand.

Lemma to_uchar_channel (z : Z) : (100 <= z <= 255)%Z → to_uchar z = z.
Proof. intros Hz. unfold to_uchar. apply Z.mod_small. lia. Qed.

(** One round of [InitBalls] in full. *)
Lemma init_ball_full (i : nat) (balls : list Ball) (k : nat) :
  (i < length balls)%nat →
  ∃ balls' k' ball,
    init_ball rand i (balls, k) = Some (balls', k')
    ∧ length balls' = length balls
    ∧ (∀ j, j ≠ i → balls' !! j = balls !! j)
    ∧ balls' !! i = Some ball
    ∧ spawned ball
    ∧ (k + 8 ≤ k' ≤ k + 206)%nat
    ∧ ((k' < k + 206)%nat →
       ∀ (j : nat) (bj : Ball),
         (j < i)%nat → balls !! j = Some bj → ¬ overlapping bj ball).
Proof.
  intros Hi. unfold init_ball.
  destruct (lookup_lt_is_Some_2 balls i Hi) as [old ->].
  cbn [mbind option_bind].
  set (r := rand k MIN_BALL_RADIUS MAX_BALL_RADIUS).
  set (sized := {| position := position old; velocity := velocity old;
                   radius := r; mass := IZR r / 2; color := color old |}).
  assert (Hr : (MIN_BALL_RADIUS <= r <= MAX_BALL_RADIUS)%Z).
  { apply rand_in_bounds. unfold MIN_BALL_RADIUS, MAX_BALL_RADIUS. lia. }
  destruct (place_ball_full rand rand_in_bounds i 100 (<[i := sized]> balls)
              (k + 1)%nat sized)
    as (placed & k' & ball & -> & Hlen & Hne & Hat & (Hrad & Hmass & _) & Hin
        & Hk & Hk2 & Hfree);
    [by apply list_lookup_insert_eq|done|].
  cbn [mbind option_bind]. rewrite Hat. cbn [mbind option_bind].
  rewrite length_insert in Hlen.
  destruct Hin as [Hinside (px & py & Hpos)]; [left; lia|].
  destruct velocity_bounds as [-> ->].
  set (final := {| position := _; velocity := _; radius := _; mass := _;
                   color := _ |}).
  exists (<[i := final]> placed), (k' + 5)%nat, final.
  split; [done|]. split; [by rewrite length_insert|]. split.
  { intros j Hj. rewrite list_lookup_insert_ne by done.
    rewrite Hne by done. by apply list_lookup_insert_ne. }
  split; [apply list_lookup_insert_eq; lia|]. split.
  { unfold spawned, initialized. subst final. cbn.
    rewrite Hrad, Hmass. cbn.
    split; [done|]. split.
    { unfold inside_window in *. cbn. by rewrite Hrad in Hinside. }
    split; [by eauto|]. split.
    { eexists _, _. split; [done|]. split; apply rand_in_bounds; lia. }
    rewrite !to_uchar_channel by (apply rand_in_bounds; lia).
    repeat split; apply rand_in_bounds; lia. }
  split; [lia|]. intros Hlt j bj Hj Hbj.
  assert (Hplaced : placed !! j = Some bj).
  { rewrite Hne by lia. rewrite list_lookup_insert_ne by lia. done. }
  pose proof (position_free_true placed i ball 0 i Hat) as Hclear.
  specialize (Hclear (Hfree ltac:(lia)) j bj ltac:(lia) Hplaced).
  unfold overlapping in *.
  rewrite (dist_sq_positions bj ball bj final eq_refl eq_refl).
  by rewrite (min_dist_radii bj ball bj final eq_refl eq_refl).
Qed.

End Rounds.

Section Spawned.

Variable rand : nat → Z → Z → Z.
Hypothesis rand_in_bounds : in_bounds rand.

(** [InitBalls] in full: the loop invariant at its exit. *)
Lemma InitBalls_full (balls : list Ball) (numBalls : Z) (calls : nat) :
  (numBalls <= Z.of_nat (length balls))%Z →
  ∃ balls' calls',
    InitBalls rand balls numBalls calls = Some (balls', calls')
    ∧ length balls' = length balls
    ∧ (∀ j, (Z.to_nat numBalls ≤ j)%nat → balls' !! j = balls !! j)
    ∧ (∀ j, (j < Z.to_nat numBalls)%nat →
         ∃ ball, balls' !! j = Some ball ∧ spawned ball)
    ∧ (calls + 8 * Z.to_nat numBalls ≤ calls'
       ≤ calls + 206 * Z.to_nat numBalls)%nat
    ∧ ((calls' < calls + 8 * Z.to_nat numBalls + 198)%nat →
       ∀ (j1 j2 : nat) (b1 b2 : Ball),
         (j1 < j2 < Z.to_nat numBalls)%nat →
         balls' !! j1 = Some b1 → balls' !! j2 = Some b2 →
         ¬ overlapping b1 b2).
Proof.
  intros Hn. unfold InitBalls. set (n := Z.to_nat numBalls).
  destruct (for_loop_total
              (λ i (st : list Ball * nat),
                 length st.1 = length balls
                 ∧ (∀ j, (i ≤ j)%nat → st.1 !! j = balls !! j)
                 ∧ (∀ j, (j < i)%nat →
                      ∃ ball, st.1 !! j = Some ball ∧ spawned ball)
                 ∧ (calls + 8 * i ≤ st.2 ≤ calls + 206 * i)%nat
                 ∧ ((st.2 < calls + 8 * i + 198)%nat →
                    ∀ (j1 j2 : nat) (b1 b2 : Ball),
                      (j1 < j2 < i)%nat →
                      st.1 !! j1 = Some b1 → st.1 !! j2 = Some b2 →
                      ¬ overlapping b1 b2))
              (init_ball rand) 0 n (balls, calls))
    as ([balls' calls'] & Hrun & Hinv).
  - cbn. split; [done|]. split; [done|]. split; [intros; lia|].
    split; [lia|]. intros; lia.
  - intros i [t k] Hi (Hlen & Hrest & Hdone & Hk & Hapart). cbn [fst snd] in *.
    destruct (init_ball_full rand rand_in_bounds i t k)
      as (t' & k' & ball & Hrun & Hlen' & Hne & Hat & Hspawn & Hk' & Hfree);
      [lia|].
    exists (t', k'). split; [done|]. cbn [fst snd].
    split; [congruence|]. split.
    { intros j Hj. rewrite Hne by lia. apply Hrest. lia. }
    split.
    { intros j Hj. destruct (decide (j = i)) as [->|Hji]; [by eauto|].
      rewrite Hne by done. apply Hdone. lia. }
    split; [lia|].
    intros Hlt j1 j2 b1 b2 Hj Hb1 Hb2.
    rewrite Hne in Hb1 by lia.
    destruct (decide (j2 = i)) as [->|Hji].
    + simplify_eq. apply (Hfree ltac:(lia) j1 b1); [lia|done].
    + rewrite Hne in Hb2 by done.
      apply (Hapart ltac:(lia) j1 j2); [lia|done..].
  - exists balls', calls'. split; [done|]. rewrite Nat.add_0_l in Hinv. exact Hinv.
Qed.

(** X14. Every ball that [InitBalls] goes through ends inside the window, with
    a radius between the two bounds, half of it as mass, integer
    coordinates, velocity components between -200 and 200, and an opaque
    colour with channels between 100 and 255. *)
Theorem InitBalls_spawned (balls : list Ball) (numBalls : Z) (calls : nat) :
  (numBalls <= Z.of_nat (length balls))%Z →
  ∃ (balls' : list Ball) (calls' : nat),
    InitBalls rand balls numBalls calls = Some (balls', calls')
    ∧ ∀ i : nat, (i < Z.to_nat numBalls)%nat →
        ∃ ball, balls' !! i = Some ball ∧ spawned ball.
Proof.
  intros Hn.
  destruct (InitBalls_full balls numBalls calls Hn)
    as (balls' & calls' & Hrun & _ & _ & Hspawn & _).
  by exists balls', calls'.
Qed.

(** X15. [InitBalls] keeps the length of the array, does not write the balls
    from index [numBalls] on, and draws between 8 and 206 random values
    per ball (100 placement attempts at most). *)
Theorem InitBalls_bounded (balls balls' : list Ball) (numBalls : Z)
    (calls calls' : nat) :
  (numBalls <= Z.of_nat (length balls))%Z →
  InitBalls rand balls numBalls calls = Some (balls', calls') →
  length balls' = length balls
  ∧ (∀ j : nat, (Z.to_nat numBalls ≤ j)%nat → balls' !! j = balls !! j)
  ∧ (calls + 8 * Z.to_nat numBalls ≤ calls'
     ≤ calls + 206 * Z.to_nat numBalls)%nat.
Proof.
  intros Hn Hrun.
  destruct (InitBalls_full balls numBalls calls Hn)
    as (t & k & Hrun' & Hlen & Hrest & _ & Hk & _).
  by simplify_eq.
Qed.

(** X16. Rejection sampling: unless some ball used up its 100 attempts (which
    takes at least [8 * numBalls + 198] random values in all), no two of
    the balls produced overlap. *)
Theorem InitBalls_no_overlap (balls balls' : list Ball) (numBalls : Z)
    (calls calls' : nat) :
  (numBalls <= Z.of_nat (length balls))%Z →
  InitBalls rand balls numBalls calls = Some (balls', calls') →
  (calls' < calls + 8 * Z.to_nat numBalls + 198)%nat →
  ∀ (i j : nat) (b1 b2 : Ball),
    (i < j < Z.to_nat numBalls)%nat →
    balls' !! i = Some b1 → balls' !! j = Some b2 →
    ¬ overlapping b1 b2.
Proof.
  intros Hn Hrun Hdraws.
  destruct (InitBalls_full balls numBalls calls Hn)
    as (t & k & Hrun' & _ & _ & _ & _ & Hapart).
  simplify_eq. by apply Hapart.
Qed.

End Spawned.

(** ** A run of [InitBalls] that places two balls at first try *)

Section FirstSample.

Variable rand : nat → Z → Z → Z.

(** The placement loop stops at the first position that is free. *)
Lemma place_ball_first (i remaining : nat) (balls : list Ball) (k : nat)
    (ball : Ball) :
  balls !! i = Some ball →
  let placed :=
    <[i := set_position ball
             {| x := IZR (rand k (radius ball) (Int.sub WIDTH (radius ball)));
                y := IZR (rand (k + 1)%nat (radius ball)
                            (Int.sub HEIGHT (radius ball))) |}]> balls in
  position_free placed i 0 i = Some true →
  place_ball rand i (S remaining) (balls, k) = Some (placed, (k + 2)%nat).
Proof.
  intros Hball placed Hfree. cbn [place_ball]. rewrite Hball. cbn.
  subst placed. by rewrite Hfree.
Qed.

(** A round whose first position is free keeps it and takes 8 draws. *)
Lemma init_ball_first_sample (i : nat) (balls : list Ball) (k : nat) (old : Ball) :
  balls !! i = Some old →
  position_free (<[i := first_sample rand k old]> balls) i 0 i = Some true →
  ∃ ball,
    init_ball rand i (balls, k) = Some (<[i := ball]> balls, (k + 8)%nat)
    ∧ position ball = position (first_sample rand k old)
    ∧ radius ball = radius (first_sample rand k old).
Proof.
  intros Hold Hfree. unfold init_ball. rewrite Hold. cbn [mbind option_bind].
  assert (Hi : (i < length balls)%nat) by (by eapply lookup_lt_Some).
  erewrite (place_ball_first i 99);
    [|by apply list_lookup_insert_eq
     |cbn [radius]; rewrite list_insert_insert_eq; exact Hfree].
  cbn [mbind option_bind radius]. rewrite list_insert_insert_eq.
  rewrite list_lookup_insert_eq by done. cbn [mbind option_bind].
  rewrite list_insert_insert_eq.
  eexists. split; [f_equal; f_equal; lia|]. done.
Qed.

End FirstSample.

Lemma corners_in_bounds : in_bounds corners.
Proof. intros k lo hi Hle. unfold corners. destruct (_ || _); lia. Qed.

(** With [corners] the first ball lands at (15, 15) and the second at
    (785, 585): both are placed at first try, with 16 draws in all. *)
Lemma corners_run :
  ∃ balls',
    InitBalls corners [resting_ball; incoming_ball] 2 0 = Some (balls', 16%nat).
Proof.
  unfold InitBalls. change (Z.to_nat 2) with 2%nat. cbn [for_loop].
  destruct (init_ball_first_sample corners 0 [resting_ball; incoming_ball] 0
              resting_ball eq_refl eq_refl) as (b0 & -> & Hp0 & Hr0).
  cbn [mbind option_bind Nat.add].
  assert (Hold : <[0%nat := b0]> [resting_ball; incoming_ball] !! 1%nat
                 = Some incoming_ball) by reflexivity.
  destruct (init_ball_first_sample corners 1
              (<[0%nat := b0]> [resting_ball; incoming_ball]) 8
              incoming_ball Hold) as (b1 & -> & _).
  - cbn [position_free list_insert insert lookup list_lookup mbind option_bind].
    rewrite Hp0, Hr0.
    change (position (first_sample corners 0 resting_ball))
      with {| x := 15; y := 15 |}.
    change (position (first_sample corners 8 incoming_ball))
      with {| x := 785; y := 585 |}.
    change (IZR (Int.add _ _)) with 30. cbn [x y].
    rewrite bool_decide_eq_false_2 by lra. done.
  - cbn [mbind option_bind Nat.add]. by eexists.
Qed.

(** ** [DrawFrame]: what a frame shows *)

Section Drawing.

Variable NUM_BALLS : Z.
Variable e : R.

Lemma circles_app (l1 l2 : list DrawCall) :
  circles (l1 ++ l2) = circles l1 ++ circles l2.
Proof. apply omap_app. Qed.

Lemma shown_floats_app (format : string) (l1 l2 : list DrawCall) :
  shown_floats format (l1 ++ l2)
  = shown_floats format l1 ++ shown_floats format l2.
Proof. apply omap_app. Qed.

(** The loop of [DrawFrame] runs to its end on a count inside the array;
    it draws one circle per ball, in order, each followed by its mass
    label when [showDebugInfo] is set. *)
Lemma draw_loop_spec (debug : bool) (balls : list Ball) (n : nat)
    (drawn : list DrawCall) :
  (n ≤ length balls)%nat →
  ∃ drawn',
    for_loop (draw_ball debug balls) 0 n drawn = Some drawn'
    ∧ circles drawn'
      = circles drawn
        ++ ((λ ball, (position ball, IZR (radius ball), Custom (color ball)))
              <$> take n balls)
    ∧ mass_labels drawn'
      = mass_labels drawn ++ (if debug then mass <$> take n balls else [])
    ∧ shown_energy drawn' = shown_energy drawn.
Proof.
  intros Hn.
  apply (for_loop_total
           (λ i t,
              circles t
              = circles drawn
                ++ ((λ ball, (position ball, IZR (radius ball),
                              Custom (color ball))) <$> take i balls)
              ∧ mass_labels t
                = mass_labels drawn
                  ++ (if debug then mass <$> take i balls else [])
              ∧ shown_energy t = shown_energy drawn)).
  - destruct debug; cbn; rewrite !app_nil_r; done.
  - intros i t Hi (Hc & Hm & He).
    destruct (lookup_lt_is_Some_2 balls i) as [ball Hball]; [lia|].
    unfold draw_ball. rewrite Hball. cbn [mbind option_bind].
    eexists. split; [done|].
    rewrite (take_S_r _ _ _ Hball), !fmap_app.
    unfold mass_labels, shown_energy in *.
    destruct debug; rewrite ?circles_app, ?shown_floats_app, Hc, ?Hm, ?He;
      cbn; rewrite ?app_nil_r, <- ?app_assoc; done.
Qed.

End Drawing.

(** X17. A frame shows every ball once, in index order, with its own centre,
    radius and colour; the mass labels are those of the balls when
    [showDebugInfo] is set and are absent otherwise; the energy text
    carries the value passed in. *)
Theorem DrawFrame_shows (NUM_BALLS : Z) (e : R) (debug : bool)
    (balls : list Ball) (numBalls : Z) (kineticEnergy : R) :
  (numBalls <= Z.of_nat (length balls))%Z →
  ∃ frame : list DrawCall,
    DrawFrame NUM_BALLS e debug balls numBalls kineticEnergy = Some frame
    ∧ circles frame
      = (λ ball, (position ball, IZR (radius ball), Custom (color ball)))
        <$> take (Z.to_nat numBalls) balls
    ∧ mass_labels frame
      = (if debug then mass <$> take (Z.to_nat numBalls) balls else [])
    ∧ shown_energy frame = [kineticEnergy].
Proof.
  intros Hn. unfold DrawFrame.
  destruct (draw_loop_spec debug balls (Z.to_nat numBalls)
              [BeginDrawing; ClearBackground BLACK])
    as (drawn & -> & Hc & Hm & He); [lia|].
  cbn [mbind option_bind]. eexists. split; [done|].
  unfold mass_labels, shown_energy in *.
  rewrite circles_app, !shown_floats_app, Hc, Hm, He.
  cbn. by rewrite !app_nil_r.
Qed.

(** Every frame carries the energy text, with the value passed in. *)
Lemma DrawFrame_energy_text (NUM_BALLS : Z) (e : R) (debug : bool)
    (balls : list Ball) (numBalls : Z) (kineticEnergy : R) :
  (numBalls <= Z.of_nat (length balls))%Z →
  ∃ frame : list DrawCall,
    DrawFrame NUM_BALLS e debug balls numBalls kineticEnergy = Some frame
    ∧ shown_energy frame = [kineticEnergy].
Proof.
  intros Hn. unfold DrawFrame.
  destruct (draw_loop_spec debug balls (Z.to_nat numBalls)
              [BeginDrawing; ClearBackground BLACK])
    as (drawn & -> & _ & _ & He); [lia|].
  cbn [mbind option_bind]. eexists. split; [done|].
  unfold shown_energy in *. by rewrite shown_floats_app, He.
Qed.

Section MainLoop.

Variable NUM_BALLS : Z.
Variable e : R.
Variable rand : nat → Z → Z → Z.
Hypothesis rand_in_bounds : in_bounds rand.

Lemma spawned_steady (balls : list Ball) :
  Z.of_nat (length balls) = NUM_BALLS →
  (∀ i, (i < Z.to_nat NUM_BALLS)%nat →
        ∃ ball, balls !! i = Some ball ∧ spawned ball) →
  Forall (λ ball, 0 < mass ball) balls.
Proof.
  intros Hlen Hall. apply Forall_lookup_2. intros i ball Hi.
  destruct (Hall i) as (b & Hb & Hinit & _).
  { apply lookup_lt_Some in Hi. lia. }
  simplify_eq. by apply initialized_mass_pos.
Qed.

(** One iteration of the loop of [main]. *)
Lemma main_iteration_spec (input : Input) (world : World) (E0 : R) :
  steady NUM_BALLS world →
  CalculateTotalKineticEnergy (array world) NUM_BALLS = Some E0 →
  ∃ world' frame E,
    main_iteration NUM_BALLS e rand input world = Some (world', frame)
    ∧ steady NUM_BALLS world'
    ∧ CalculateTotalKineticEnergy (array world') NUM_BALLS = Some E
    ∧ shown_energy frame = [E]
    ∧ showDebugInfo world'
      = (if key_d input then negb (showDebugInfo world) else showDebugInfo world)
    ∧ (key_r input = false → 0 <= e <= 1 →
       E <= E0 ∧ (e = 1 → E = E0)).
Proof.
  intros [Hlen Hmass] HE0. unfold main_iteration.
  assert (Hstart : ∃ balls k,
            (if key_r input
             then InitBalls rand (array world) NUM_BALLS (draws world)
             else Some (array world, draws world)) = Some (balls, k)
            ∧ Z.of_nat (length balls) = NUM_BALLS
            ∧ Forall (λ ball, 0 < mass ball) balls
            ∧ (key_r input = false → balls = array world)).
  { destruct (key_r input).
    - destruct (InitBalls_full rand rand_in_bounds (array world) NUM_BALLS
                  (draws world)) as (balls & k & Hrun & Hl & _ & Hsp & _); [lia|].
      exists balls, k. split; [done|]. split; [lia|]. split; [|done].
      apply spawned_steady; [lia|done].
    - by exists (array world), (draws world). }
  destruct Hstart as (balls & k & -> & Hlen' & Hmass' & Hsame).
  cbn [mbind option_bind].
  destruct (UpdateFrame_total e (frame_time input) balls NUM_BALLS)
    as [moved Hmoved]; [lia|].
  rewrite Hmoved. cbn [mbind option_bind].
  pose proof (UpdateFrame_kept _ _ _ _ _ Hmoved) as Hkept.
  pose proof (kept_length _ _ Hkept) as Hlen2.
  rewrite CalculateTotalKineticEnergy_take by lia. cbn [mbind option_bind].
  destruct (DrawFrame_energy_text NUM_BALLS e
              (if key_d input then negb (showDebugInfo world)
               else showDebugInfo world)
              moved NUM_BALLS
              (total_kinetic_energy (take (Z.to_nat NUM_BALLS) moved)))
    as (frame & -> & Hshown); [lia|].
  cbn [mbind option_bind]. eexists _, frame, _. split; [done|].
  unfold steady. cbn [array showDebugInfo].
  split; [split; [lia|by eapply same_bodies_masses]|].
  split; [apply CalculateTotalKineticEnergy_take; lia|].
  split; [done|]. split; [done|].
  intros Hr He. rewrite (Hsame Hr) in *.
  rewrite UpdateFrame_count in Hmoved.
  apply (UpdateFrame_energy_bounded e He (array world) Hmass) in Hmoved.
  destruct Hmoved as (_ & Hle & Heq).
  rewrite CalculateTotalKineticEnergy_take in HE0 by lia. simplify_eq.
  done.
Qed.

Lemma d_presses_cons (input : Input) (inputs : list Input) :
  d_presses (input :: inputs)
  = (if key_d input then S (d_presses inputs) else d_presses inputs).
Proof.
  unfold d_presses. rewrite filter_cons.
  destruct (key_d input); [by rewrite decide_True|by rewrite decide_False].
Qed.

(** The loop of [main], from a state whose balls have positive mass. *)
Lemma main_loop_spec (inputs : list Input) :
  ∀ (world : World) (E0 : R),
    steady NUM_BALLS world →
    CalculateTotalKineticEnergy (array world) NUM_BALLS = Some E0 →
    ∃ world' frames energies,
      main_loop NUM_BALLS e rand inputs world = Some (world', frames)
      ∧ length frames = length inputs
      ∧ showDebugInfo world'
        = (if Nat.even (d_presses inputs) then showDebugInfo world
           else negb (showDebugInfo world))
      ∧ Forall2 (λ frame E, shown_energy frame = [E]) frames energies
      ∧ (Forall (λ input, key_r input = false) inputs → 0 <= e <= 1 →
         nonincreasing_from E0 energies
         ∧ (e = 1 → Forall (λ E, E = E0) energies)).
Proof.
  induction inputs as [|input inputs IH]; intros world E0 Hsteady HE0.
  - exists world, [], []. cbn. repeat split; done || constructor.
  - destruct (main_iteration_spec input world E0 Hsteady HE0)
      as (world1 & frame & E & Hrun & Hsteady1 & HE & Hshown & Hflag & Hen).
    destruct (IH world1 E Hsteady1 HE)
      as (world' & frames & energies & Hloop & Hlen & Hflag' & Hshown' & Hen').
    exists world', (frame :: frames), (E :: energies).
    cbn [main_loop]. rewrite Hrun. cbn [mbind option_bind]. rewrite Hloop.
    cbn [mbind option_bind]. split; [done|]. split; [cbn; lia|]. split.
    { rewrite Hflag', Hflag, d_presses_cons.
      destruct (key_d input); [|done].
      rewrite Nat.even_succ, <- Nat.negb_even.
      destruct (Nat.even (d_presses inputs)), (showDebugInfo world); done. }
    split; [by constructor|].
    intros Hnor He. apply Forall_cons in Hnor as [Hr Hnor].
    destruct (Hen Hr He) as [Hle Heq]. destruct (Hen' Hnor He) as [Hmono Hconst].
    split; [done|]. intros He1. specialize (Heq He1). subst E.
    constructor; [done|]. by apply Hconst.
Qed.

End MainLoop.

Section Main.

Variable NUM_BALLS : Z.
Variable rand : nat → Z → Z → Z.
Hypothesis rand_in_bounds : in_bounds rand.
Variable balls : list Ball.
Hypothesis balls_length : Z.of_nat (length balls) = NUM_BALLS.

Lemma main_spec (e : R) (inputs : list Input) :
  ∃ world frames energies E0,
    main NUM_BALLS e rand balls inputs = Some (world, frames)
    ∧ length frames = length inputs
    ∧ showDebugInfo world = Nat.even (d_presses inputs)
    ∧ Forall2 (λ frame E, shown_energy frame = [E]) frames energies
    ∧ (Forall (λ input, key_r input = false) inputs → 0 <= e <= 1 →
       nonincreasing_from E0 energies
       ∧ (e = 1 → Forall (λ E, E = E0) energies)).
Proof.
  unfold main.
  destruct (InitBalls_full rand rand_in_bounds balls NUM_BALLS 0)
    as (filled & k & -> & Hlen & _ & Hsp & _); [lia|].
  cbn [mbind option_bind].
  set (world0 := {| array := filled; showDebugInfo := true; draws := k |}).
  assert (Hsteady : steady NUM_BALLS world0).
  { split; cbn; [lia|]. apply (spawned_steady NUM_BALLS); [lia|done]. }
  destruct (main_loop_spec NUM_BALLS e rand rand_in_bounds inputs world0
              (total_kinetic_energy (take (Z.to_nat NUM_BALLS) filled)) Hsteady)
    as (world & frames & energies & Hrun & Hlen' & Hflag & Hshown & Hen).
  { apply CalculateTotalKineticEnergy_take. cbn. lia. }
  exists world, frames, energies,
    (total_kinetic_energy (take (Z.to_nat NUM_BALLS) filled)).
  split; [done|]. split; [done|]. split; [|by split].
  rewrite Hflag. cbn. by destruct (Nat.even _).
Qed.

(** X18. [main] draws one frame per iteration, whatever the keys and the frame
    times, and ends with [showDebugInfo] set exactly when the key D was
    pressed an even number of times. *)
Theorem main_frames (e : R) (inputs : list Input) :
  ∃ (world : World) (frames : list (list DrawCall)),
    main NUM_BALLS e rand balls inputs = Some (world, frames)
    ∧ length frames = length inputs
    ∧ showDebugInfo world = Nat.even (d_presses inputs).
Proof.
  destruct (main_spec e inputs) as (world & frames & _ & _ & Hrun & Hlen & Hflag & _).
  by exists world, frames.
Qed.


(** X20. With coefficient 1, as long as the key R is not pressed, every frame
    shows the same total kinetic energy. *)
Theorem main_energy_constant (inputs : list Input) :
  Forall (λ input, key_r input = false) inputs →
  ∃ (world : World) (frames : list (list DrawCall)) (energy : R),
    main NUM_BALLS RESTITUTION_elastic rand balls inputs = Some (world, frames)
    ∧ Forall (λ frame, shown_energy frame = [energy]) frames.
Proof.
  intros Hr.
  destruct (main_spec RESTITUTION_elastic inputs)
    as (world & frames & energies & E0 & Hrun & _ & _ & Hshown & Hen).
  exists world, frames, E0. split; [done|].
  destruct Hen as [_ Hconst]; [done|unfold RESTITUTION_elastic; lra|].
  specialize (Hconst eq_refl).
  clear Hrun. induction Hshown as [|frame E frames energies HE _ IH];
    [constructor|].
  apply Forall_cons in Hconst as [-> Hconst]. constructor; [done|by apply IH].
Qed.

End Main.

(** ** The further properties at concrete balls *)




Lemma centre_ball_clear : clear_of_walls centre_ball.
Proof. unfold clear_of_walls, WIDTH, HEIGHT. cbn. lra. Qed.

Lemma CheckWallCollision_clear_witness :
  clear_of_walls centre_ball
  ∧ CheckWallCollision RESTITUTION_damped centre_ball = centre_ball.
Proof.
  split; [exact centre_ball_clear|].
  exact (CheckWallCollision_clear RESTITUTION_damped _ centre_ball_clear).
Defined.


Lemma CheckWallCollision_energy_witness :
  - 1 <= RESTITUTION_damped <= 1
  ∧ kinetic_energy (CheckWallCollision RESTITUTION_damped resting_ball)
    <= kinetic_energy resting_ball.
Proof.
  assert (He : - 1 <= RESTITUTION_damped <= 1)
    by (unfold RESTITUTION_damped; lra).
  split; [exact He|].
  apply (CheckWallCollision_energy RESTITUTION_damped resting_ball He).
  cbn. lra.
Defined.

Lemma CheckWallCollision_inside_fixed_witness :
  inside_window resting_ball
  ∧ position (CheckWallCollision RESTITUTION_damped resting_ball)
    = position resting_ball.
Proof.
  assert (Hin : inside_window resting_ball)
    by (unfold inside_window, WIDTH, HEIGHT; cbn; lra).
  split; [exact Hin|].
  apply (CheckWallCollision_inside_fixed RESTITUTION_damped resting_ball);
    [cbn; lia|exact Hin].
Defined.

Lemma CalculateTotalKineticEnergy_sum_witness :
  (2 <= Z.of_nat (length [resting_ball; incoming_ball]))%Z
  ∧ CalculateTotalKineticEnergy [resting_ball; incoming_ball] 2
    = Some (total_kinetic_energy [resting_ball; incoming_ball]).
Proof.
  assert (Hn : (2 <= Z.of_nat (length [resting_ball; incoming_ball]))%Z)
    by (cbn; lia).
  split; [exact Hn|].
  exact (proj2 (proj2 (CalculateTotalKineticEnergy_sum
                         [resting_ball; incoming_ball] 2 Hn)) eq_refl).
Defined.

Lemma resting_incoming_masses :
  Forall (λ ball, 0 < mass ball) [resting_ball; incoming_ball].
Proof. repeat constructor; cbn; lra. Qed.

Lemma CalculateTotalKineticEnergy_nonneg_witness :
  Forall (λ ball, 0 <= mass ball) [resting_ball; incoming_ball]
  ∧ 0 <= 0 + kinetic_energy resting_ball + kinetic_energy incoming_ball.
Proof.
  assert (Hm : Forall (λ ball, 0 <= mass ball) [resting_ball; incoming_ball])
    by (repeat constructor; cbn; lra).
  split; [exact Hm|].
  exact (CalculateTotalKineticEnergy_nonneg [resting_ball; incoming_ball] 2 _
           Hm (energy_of_pair resting_ball incoming_ball)).
Defined.


Lemma UpdateFrames_energy_conserved_witness :
  Forall (λ ball, 0 < mass ball) [resting_ball; incoming_ball]
  ∧ ∃ (balls' : list Ball) (energy : R),
      UpdateFrames RESTITUTION_elastic [0.0625; 0.0625]
        [resting_ball; incoming_ball] 2 = Some balls'
      ∧ CalculateTotalKineticEnergy [resting_ball; incoming_ball] 2 = Some energy
      ∧ CalculateTotalKineticEnergy balls' 2 = Some energy.
Proof.
  split; [exact resting_incoming_masses|].
  apply (UpdateFrames_energy_conserved [resting_ball; incoming_ball] 2
           [0.0625; 0.0625] resting_incoming_masses).
  cbn. lia.
Defined.

Lemma UpdateFrame_beyond_count_witness :
  ∃ balls' : list Ball,
    UpdateFrame RESTITUTION_elastic 0.0625 [resting_ball; incoming_ball] 1
    = Some balls'
    ∧ balls' !! 1%nat = Some incoming_ball.
Proof.
  destruct (UpdateFrame_total RESTITUTION_elastic 0.0625
              [resting_ball; incoming_ball] 1) as [balls' Hrun]; [cbn; lia|].
  exists balls'. split; [exact Hrun|].
  apply (UpdateFrame_beyond_count RESTITUTION_elastic 0.0625 _ _ 1 Hrun 1%nat).
  cbn. lia.
Defined.

Lemma UpdateFrame_free_flight_witness :
  (2 <= Z.of_nat (length [incoming_ball; centre_ball]))%Z
  ∧ UpdateFrame RESTITUTION_elastic 0.0625 [incoming_ball; centre_ball] 2
    = Some (free_flight 0.0625 (Z.to_nat 2) [incoming_ball; centre_ball]).
Proof.
  assert (Hn : (2 <= Z.of_nat (length [incoming_ball; centre_ball]))%Z)
    by (cbn; lia).
  split; [exact Hn|].
  apply (UpdateFrame_free_flight RESTITUTION_elastic 0.0625
           [incoming_ball; centre_ball] 2 Hn).
  - intros i ball Hi Hball. change (Z.to_nat 2) with 2%nat in *.
    destruct i as [|[|i]]; [| |lia]; cbn in Hball; simplify_eq;
      rewrite decide_True by lia;
      unfold clear_of_walls, WIDTH, HEIGHT; cbn; lra.
  - intros i j b1 b2 Hij Hb1 Hb2. change (Z.to_nat 2) with 2%nat in *.
    destruct i as [|i]; [|lia]. destruct j as [|[|j]]; [lia| |lia].
    cbn in Hb1, Hb2. simplify_eq. rewrite !decide_True by lia.
    intros [Hlt _]. revert Hlt.
    change (min_dist _ _) with 30. unfold dist_sq. cbn. lra.
Defined.

Lemma InitBalls_spawned_witness :
  in_bounds lowest
  ∧ ∃ (balls' : list Ball) (calls' : nat),
      InitBalls lowest [resting_ball; incoming_ball] 2 0 = Some (balls', calls')
      ∧ ∃ ball, balls' !! 1%nat = Some ball ∧ spawned ball.
Proof.
  split; [exact lowest_in_bounds|].
  destruct (InitBalls_spawned lowest lowest_in_bounds
              [resting_ball; incoming_ball] 2 0)
    as (balls' & calls' & Hrun & Hall); [cbn; lia|].
  exists balls', calls'. split; [exact Hrun|]. apply Hall. cbn. lia.
Defined.

Lemma InitBalls_bounded_witness :
  in_bounds corners
  ∧ ∃ balls' : list Ball,
      InitBalls corners [resting_ball; incoming_ball] 2 0 = Some (balls', 16%nat)
      ∧ length balls' = 2%nat.
Proof.
  split; [exact corners_in_bounds|].
  destruct corners_run as [balls' Hrun]. exists balls'. split; [exact Hrun|].
  apply (InitBalls_bounded corners corners_in_bounds
           [resting_ball; incoming_ball] balls' 2 0 16); [cbn; lia|exact Hrun].
Defined.

Lemma InitBalls_no_overlap_witness :
  in_bounds corners
  ∧ ∃ balls' : list Ball,
      InitBalls corners [resting_ball; incoming_ball] 2 0 = Some (balls', 16%nat)
      ∧ ∀ b1 b2 : Ball,
          balls' !! 0%nat = Some b1 → balls' !! 1%nat = Some b2 →
          ¬ overlapping b1 b2.
Proof.
  split; [exact corners_in_bounds|].
  destruct corners_run as [balls' Hrun]. exists balls'. split; [exact Hrun|].
  intros b1 b2 Hb1 Hb2.
  assert (Hn : (2 <= Z.of_nat (length [resting_ball; incoming_ball]))%Z)
    by (cbn; lia).
  assert (Hd : (16 < 0 + 8 * Z.to_nat 2 + 198)%nat) by (cbn; lia).
  apply (InitBalls_no_overlap corners corners_in_bounds
           [resting_ball; incoming_ball] balls' 2 0 16 Hn Hrun Hd
           0%nat 1%nat b1 b2); [cbn; lia|exact Hb1|exact Hb2].
Defined.

Lemma DrawFrame_shows_witness :
  (2 <= Z.of_nat (length [resting_ball; incoming_ball]))%Z
  ∧ ∃ frame : list DrawCall,
      DrawFrame 2 RESTITUTION_elastic true [resting_ball; incoming_ball] 2 0
      = Some frame
      ∧ mass_labels frame = [mass resting_ball; mass incoming_ball]
      ∧ shown_energy frame = [0].
Proof.
  assert (Hn : (2 <= Z.of_nat (length [resting_ball; incoming_ball]))%Z)
    by (cbn; lia).
  split; [exact Hn|].
  destruct (DrawFrame_shows 2 RESTITUTION_elastic true
              [resting_ball; incoming_ball] 2 0 Hn)
    as (frame & Hrun & _ & Hlabels & Henergy).
  exists frame. split; [exact Hrun|]. split; [exact Hlabels|exact Henergy].
Defined.

Lemma sample_inputs_no_reset :
  Forall (λ input, key_r input = false) sample_inputs.
Proof. by repeat constructor. Qed.

Lemma main_frames_witness :
  in_bounds lowest
  ∧ Z.of_nat (length [resting_ball; incoming_ball]) = 2%Z
  ∧ ∃ (world : World) (frames : list (list DrawCall)),
      main 2 RESTITUTION_damped lowest [resting_ball; incoming_ball] sample_inputs
      = Some (world, frames)
      ∧ length frames = length sample_inputs
      ∧ showDebugInfo world = Nat.even (d_presses sample_inputs).
Proof.
  split; [exact lowest_in_bounds|]. split; [reflexivity|].
  exact (main_frames 2 lowest lowest_in_bounds [resting_ball; incoming_ball]
           eq_refl RESTITUTION_damped sample_inputs).
Defined.


Lemma main_energy_constant_witness :
  Forall (λ input, key_r input = false) sample_inputs
  ∧ ∃ (world : World) (frames : list (list DrawCall)) (energy : R),
      main 2 RESTITUTION_elastic lowest [resting_ball; incoming_ball]
        sample_inputs = Some (world, frames)
      ∧ Forall (λ frame, shown_energy frame = [energy]) frames.
Proof.
  split; [exact sample_inputs_no_reset|].
  exact (main_energy_constant 2 lowest lowest_in_bounds
           [resting_ball; incoming_ball] eq_refl sample_inputs
           sample_inputs_no_reset).
Defined.
